(** * collagraph-lsp: region classification, position mapping and the
      feature dispatcher

    A shallow embedding of [collagraph_lsp/completions.py] and
    [collagraph_lsp/server.py], and the properties of the specification
    that were checked against it.

    Conventions of the embedding.
    - A Python [str] is a list of characters ([str := list ascii]);
      [len] is [length], slicing is [take]/[drop].  No function of the two
      modules looks at a character beyond comparing it with an ASCII one
      (the only exception, [str.splitlines], is noted where it is modelled).
    - [Position] is lsprotocol's class: both fields are validated as LSP
      unsigned integers when an instance is built, so a [Position] that
      reaches a function holds two naturals.
    - The external collaborators (workspace, linter, formatter, token
      provider, [construct_ast], [ast.unparse], Jedi, the scratch file) are
      fields of one interface record; each may raise.
    - Handlers run in a small monad that threads the trace of observable
      effects (log records, collaborator calls, published notifications)
      and propagates exceptions; [try]/[except Exception] and
      [try]/[finally] are combinators of that monad. *)

From Stdlib Require Import Ascii String ZArith Lia DecimalString Sorted.
From stdpp Require Import base list list_numbers strings gmap.

Open Scope nat_scope.

(** ** Text *)

Abbreviation str := (list ascii).

(** A string literal of the source, as a [str]. *)
Abbreviation lit := list_ascii_of_string.

Definition LF : ascii := "010"%char.
Definition CR : ascii := "013"%char.

(** [source.split("\n")]: the pieces between line feeds; a text without a
    line feed is one piece, and the empty text gives one empty piece. *)
Fixpoint split_lines (s : str) : list str :=
  match s with
  | [] => [[]]
  | c :: s' =>
      if Ascii.eqb c LF then [] :: split_lines s'
      else match split_lines s' with
           | l :: ls => (c :: l) :: ls
           | [] => [[c]]
           end
  end.

(** [s.startswith(p)] and [s.endswith(p)]. *)
Fixpoint startswith (p s : str) : bool :=
  match p, s with
  | [], _ => true
  | _ :: _, [] => false
  | a :: p', b :: s' => Ascii.eqb a b && startswith p' s'
  end.

Definition endswith (s suffix : str) : bool :=
  startswith (reverse suffix) (reverse s).

(** ** completions.py *)

Record Position := { line : nat; character : nat }.

(** [position_to_offset]:
    [[
    lines = source.split("\n")
    offset = sum(len(line) + 1 for line in lines[: position.line])
    offset += position.character
    return offset
    ]]
    A slice past the end of [lines] is the whole list. *)
Definition position_to_offset (source : str) (position : Position) : nat :=
  let lines := split_lines source in
  let offset := sum_list_with (fun l : str => length l + 1) (take (line position) lines) in
  offset + character position.

(** A position is within the bounds of a text when its line exists and its
    character is at most the length of that line. *)
Definition in_bounds (source : str) (p : Position) : Prop :=
  exists l, split_lines source !! line p = Some l /\ character p <= length l.

(** *** The pattern of [is_in_script_region]

    [re.finditer(r"<script[^>]*>(.*?)</script>", source, re.DOTALL)].
    The pattern is a sequence of single-character items, a greedy and a
    lazy repetition of a character class, and one capturing group.  The
    matcher below is a backtracking matcher for exactly that fragment, in
    the order Python's [re] explores it: a greedy repetition first takes
    one more character and falls back to the rest of the pattern, a lazy
    one first tries the rest of the pattern and only then takes one more
    character.  No flag but [re.DOTALL] is given, so letters are compared
    as they are and [.] matches every character, line feed included. *)

Inductive charclass :=
| Chr (c : ascii)        (* a literal character *)
| NotChr (c : ascii)     (* [^c] *)
| AnyChr.                (* . under re.DOTALL *)

Inductive item :=
| One (k : charclass)          (* exactly one character of the class *)
| GreedyStar (k : charclass)   (* k* *)
| LazyStar (k : charclass)     (* k*? *)
| GroupStart                   (* ( of group 1 *)
| GroupEnd.                    (* ) of group 1 *)

Definition pattern := list item.

Definition in_class (k : charclass) (c : ascii) : bool :=
  match k with
  | Chr a => Ascii.eqb c a
  | NotChr a => negb (Ascii.eqb c a)
  | AnyChr => true
  end.

(** The spans of a match object: [m.start()], [m.end()], and
    [m.start(1)], [m.end(1)], which Python reports as -1 while group 1 did
    not take part in the match. *)
Record Match := {
  m_start : nat;
  m_end : nat;
  m_start1 : option nat;
  m_end1 : option nat
}.

(** State of an attempt: where it began and what group 1 holds so far. *)
Record captures := { c_begin : nat; c_start1 : option nat; c_end1 : option nat }.

Definition finish (g : captures) (pos : nat) : Match :=
  {| m_start := c_begin g; m_end := pos; m_start1 := c_start1 g; m_end1 := c_end1 g |}.

Definition greedy (k : charclass) (rest : str -> nat -> captures -> option Match) :
    str -> nat -> captures -> option Match :=
  fix go (s : str) (pos : nat) (g : captures) : option Match :=
    match s with
    | c :: s' =>
        if in_class k c then
          match go s' (S pos) g with
          | Some m => Some m
          | None => rest s pos g
          end
        else rest s pos g
    | [] => rest s pos g
    end.

Definition lazy (k : charclass) (rest : str -> nat -> captures -> option Match) :
    str -> nat -> captures -> option Match :=
  fix go (s : str) (pos : nat) (g : captures) : option Match :=
    match rest s pos g with
    | Some m => Some m
    | None =>
        match s with
        | c :: s' => if in_class k c then go s' (S pos) g else None
        | [] => None
        end
    end.

(** [match_items p s pos g]: match the items [p] against [s], the text from
    offset [pos] on; the first success in backtracking order. *)
Fixpoint match_items (p : pattern) : str -> nat -> captures -> option Match :=
  match p with
  | [] => fun _ pos g => Some (finish g pos)
  | One k :: p' =>
      fun s pos g =>
        match s with
        | c :: s' => if in_class k c then match_items p' s' (S pos) g else None
        | [] => None
        end
  | GreedyStar k :: p' => greedy k (match_items p')
  | LazyStar k :: p' => lazy k (match_items p')
  | GroupStart :: p' =>
      fun s pos g =>
        match_items p' s pos
          {| c_begin := c_begin g; c_start1 := Some pos; c_end1 := c_end1 g |}
  | GroupEnd :: p' =>
      fun s pos g =>
        match_items p' s pos
          {| c_begin := c_begin g; c_start1 := c_start1 g; c_end1 := Some pos |}
  end.

(** An attempt anchored at offset [pos], [s] being the text from there on. *)
Definition match_at (p : pattern) (s : str) (pos : nat) : option Match :=
  match_items p s pos {| c_begin := pos; c_start1 := None; c_end1 := None |}.

(** [re.finditer]: the matches from left to right, none overlapping
    another.  The scan tries every offset in turn, the end of the text
    included; after a match it resumes at the end of that match ([skip]
    counts the characters still to pass over).  Python treats empty matches
    specially; the one pattern used here never matches fewer than
    seventeen characters. *)
Fixpoint finditer_from (p : pattern) (s : str) (pos skip : nat) : list Match :=
  match skip with
  | S k =>
      match s with
      | [] => []
      | _ :: s' => finditer_from p s' (S pos) k
      end
  | O =>
      match match_at p s pos with
      | Some m =>
          m :: match s with
               | [] => []
               | _ :: s' => finditer_from p s' (S pos) (m_end m - pos - 1)
               end
      | None =>
          match s with
          | [] => []
          | _ :: s' => finditer_from p s' (S pos) 0
          end
      end
  end.

Definition finditer (p : pattern) (s : str) : list Match := finditer_from p s 0 0.

Definition literal (s : str) : pattern := (fun c => One (Chr c)) <$> s.

(** [r"<script[^>]*>(.*?)</script>"] *)
Definition script_pattern : pattern :=
  literal (lit "<script") ++ [GreedyStar (NotChr ">"%char); One (Chr ">"%char)]
  ++ [GroupStart; LazyStar AnyChr; GroupEnd]
  ++ literal (lit "</script>").

(** [match.start(1) <= offset <= match.end(1)]; with an unset group both
    are -1 and no offset passes. *)
Definition span1_contains (m : Match) (offset : nat) : bool :=
  match m_start1 m, m_end1 m with
  | Some s, Some e => (s <=? offset) && (offset <=? e)
  | _, _ => false
  end.

(** [is_in_script_region]: the loop returns [True] at the first match whose
    content span holds the offset, and [False] when the matches run out. *)
Definition is_in_script_region (source : str) (position : Position) : bool :=
  let matches := finditer script_pattern source in
  let offset := position_to_offset source position in
  existsb (fun m => span1_contains m offset) matches.

Record CompletionContext := {
  is_python_code : bool;
  full_source : str;
  original_position : Position
}.

Definition analyze_context (source : str) (position : Position) : CompletionContext :=
  if is_in_script_region source position then
    {| is_python_code := true; full_source := source; original_position := position |}
  else
    {| is_python_code := false; full_source := source; original_position := position |}.

(** The regions of a text (the spec's [findRegions]): the content spans of
    the matches, in order. *)
Definition find_regions (source : str) : list (nat * nat) :=
  omap (fun m => match m_start1 m, m_end1 m with
                 | Some s, Some e => Some (s, e)
                 | _, _ => None
                 end) (finditer script_pattern source).

(** The position on line 0 whose offset is [o]. *)
Definition at_offset (o : nat) : Position := {| line := 0; character := o |}.

(** *** The two-pass reading of the pattern

    What one anchored attempt of the pattern amounts to: the text starts
    with [<script], the opening tag runs to the first [>] after it, and
    the content runs to the first [</script>] after that.  It is compared
    with the backtracking matcher in [match_at_script]. *)

Fixpoint index_of (c : ascii) (s : str) : option nat :=
  match s with
  | [] => None
  | a :: s' => if Ascii.eqb a c then Some 0 else S <$> index_of c s'
  end.

Fixpoint find_sub (needle s : str) : option nat :=
  if startswith needle s then Some 0
  else match s with
       | [] => None
       | _ :: s' => S <$> find_sub needle s'
       end.

Definition tag_pair_at (s : str) (pos : nat) : option Match :=
  if startswith (lit "<script") s then
    match index_of ">"%char (drop 7 s) with
    | Some j =>
        match find_sub (lit "</script>") (drop (8 + j) s) with
        | Some k =>
            Some {| m_start := pos; m_end := pos + (8 + j) + k + 9;
                    m_start1 := Some (pos + (8 + j));
                    m_end1 := Some (pos + (8 + j) + k) |}
        | None => None
        end
    | None => None
    end
  else None.

(** ** Exceptions and effects *)

(** An instance of Python's [Exception] with its message: what an
    [except Exception] clause catches. *)
Inductive exn := Exception (msg : str).

Definition exn_msg (e : exn) : str := match e with Exception m => m end.

Inductive result (A : Type) :=
| Ok (a : A)
| Raise (e : exn).
Arguments Ok {A} a.
Arguments Raise {A} e.

Inductive level := DEBUG | INFO | ERROR.

(** The collaborators a handler can call. *)
Inductive callee :=
| GetTextDocument | LintCgxContent | FormatCgxContent | GetTokens | EncodeTokens
| NamedTemporaryFile | TmpFileWrite | Unlink | ConstructAst | AstUnparse | JediScript | ScriptComplete.

(** [str(v)] of an integer inside an f-string. *)
Definition str_of_Z (v : Z) : str := lit (NilEmpty.string_of_int (Z.to_int v)).

(** lsprotocol's [uinteger_validator]: a field declared as an LSP unsigned
    integer is checked to lie in 0 .. 2^31 - 1 when the instance is built,
    and a value out of range raises [ValueError]. *)
Definition UINTEGER_MAX_VALUE : Z := 2 ^ 31 - 1.

Definition uinteger (name : str) (v : Z) : result nat :=
  if ((0 <=? v) && (v <=? UINTEGER_MAX_VALUE))%Z then Ok (Z.to_nat v)
  else Raise (Exception (name ++ lit " should be in range [0:2147483647], but was "
                         ++ str_of_Z v ++ lit ".")).

Definition mk_Position (l c : Z) : result Position :=
  match uinteger (lit "Position.line") l with
  | Raise e => Raise e
  | Ok l' =>
      match uinteger (lit "Position.character") c with
      | Raise e => Raise e
      | Ok c' => Ok {| line := l'; character := c' |}
      end
  end.

Record Range := { range_start : Position; range_end : Position }.

Inductive DiagnosticSeverity := SevError | SevWarning | SevInformation | SevHint.

Record LspDiagnostic := {
  diag_range : Range;
  diag_message : str;
  diag_severity : DiagnosticSeverity;
  diag_code : str;
  diag_source : str
}.

Record PublishDiagnosticsParams := {
  pd_uri : str;
  pd_diagnostics : list LspDiagnostic
}.

Record TextEdit := { te_range : Range; te_new_text : str }.

Record SemanticTokens := { st_data : list Z }.

Inductive event :=
| Log (lv : level) (msg : str)
| Invoke (c : callee) (arg : str)
| Publish (params : PublishDiagnosticsParams).

Definition trace := list event.

(** A computation extends the trace and returns or raises. *)
Definition M (A : Type) : Type := trace -> trace * result A.

Definition ret {A} (a : A) : M A := fun t => (t, Ok a).

Definition bind {A B} (m : M A) (f : A -> M B) : M B :=
  fun t =>
    match m t with
    | (t', Ok a) => f a t'
    | (t', Raise e) => (t', Raise e)
    end.

Declare Scope eff_scope.
Delimit Scope eff_scope with eff.
Notation "x <- m ;; k" := (bind m (fun x => k))
  (at level 100, m at next level, right associativity) : eff_scope.
Notation "m ;;; k" := (bind m (fun _ => k))
  (at level 100, right associativity) : eff_scope.

Definition emit (ev : event) : M unit := fun t => (t ++ [ev], Ok tt).

Definition lift {A} (r : result A) : M A := fun t => (t, r).

(** A call of a collaborator: recorded with the text it is given (a handle,
    a path or a content; empty when it is given none), then its outcome. *)
Definition invoke {A} (c : callee) (arg : str) (r : result A) : M A :=
  fun t => (t ++ [Invoke c arg], r).

(** [try: body / except Exception as e: handler(e)] *)
Definition try_except {A} (body : M A) (handler : exn -> M A) : M A :=
  fun t =>
    match body t with
    | (t', Raise e) => handler e t'
    | r => r
    end.

(** [try: body / finally: cleanup]: the cleanup runs on every exit; when it
    raises, its exception replaces the outcome of the body. *)
Definition try_finally {A} (body : M A) (cleanup : M unit) : M A :=
  fun t =>
    match body t with
    | (t', r) =>
        match cleanup t' with
        | (t'', Ok _) => (t'', r)
        | (t'', Raise e) => (t'', Raise e)
        end
    end.

Fixpoint for_each {A B} (f : A -> M B) (l : list A) : M (list B) :=
  match l with
  | [] => ret []
  | a :: l' => (b <- f a ;; bs <- for_each f l' ;; ret (b :: bs))%eff
  end.

Definition log (lv : level) (msg : str) : M unit := emit (Log lv msg).

(** [str(n)] inside an f-string. *)
Definition str_of_nat (n : nat) : str := lit (NilEmpty.string_of_uint (Nat.to_uint n)).

(** ** The collaborators *)

(** A diagnostic of [ruff_cgx.lint_cgx_content]. *)
Record CgxDiagnostic := {
  d_line : Z; d_column : Z; d_end_line : Z; d_end_column : Z;
  d_message : str; d_severity : str; d_code : str; d_source : str
}.

(** A completion of Jedi: [name], [type], [description] and the method
    [docstring(raw=...)]. *)
Record JediCompletion := {
  comp_name : str;
  comp_type : str;
  comp_description : str;
  comp_docstring : bool -> result str
}.

Class Collaborators := {
  Ast : Type;
  Script : Type;
  Token : Type;
  (* ls.workspace.get_text_document(uri).source *)
  get_text_document : str -> result str;
  (* ruff_cgx *)
  lint_cgx_content : str -> result (list CgxDiagnostic);
  format_cgx_content : str -> str -> result str;
  (* ls.semantic_tokens_provider *)
  get_tokens : str -> str -> result (list Token);
  encode_tokens : list Token -> result (list Z);
  (* tempfile.NamedTemporaryFile(mode="w", suffix=, delete=False): the
     scratch file is created on disk and its name returned *)
  named_temporary_file : str -> result str;
  (* tmp_file.write(content) and the close of the file that ends the with
     block, given the name of the file *)
  tmp_file_write : str -> str -> result unit;
  (* tmp_path.unlink(missing_ok=True) *)
  unlink : str -> result unit;
  (* collagraph.sfc.construct_ast(path=, template=), first component *)
  construct_ast : str -> str -> result Ast;
  ast_unparse : Ast -> result str;
  (* jedi.Script(code=, path=) and Script.complete(line=, column=) *)
  jedi_script : str -> str -> result Script;
  script_complete : Script -> nat -> nat -> result (list JediCompletion)
}.

(** ** completions.py, the completion bridge *)

(** lsprotocol's [CompletionItemKind]; [KindText] is [CompletionItemKind.Text]
    and so on. *)
Inductive CompletionItemKind :=
| KindText | KindMethod | KindFunction | KindConstructor | KindField
| KindVariable | KindClass | KindInterface | KindModule | KindProperty
| KindUnit | KindValue | KindEnum | KindKeyword | KindSnippet | KindColor
| KindFile | KindReference | KindFolder | KindEnumMember | KindConstant
| KindStruct | KindEvent | KindOperator | KindTypeParameter.

Inductive InsertTextFormat := PlainText | SnippetFormat.

Record CompletionItem := {
  label : str;
  kind : CompletionItemKind;
  detail : str;
  documentation : option str;
  insert_text : str;
  insert_text_format : InsertTextFormat;
  sort_text : str
}.

(** The dictionary of [map_jedi_type_to_lsp]. *)
Definition jedi_type_mapping : gmap (list ascii) CompletionItemKind :=
  list_to_map [
    (lit "module", KindModule);
    (lit "class", KindClass);
    (lit "function", KindFunction);
    (lit "param", KindVariable);
    (lit "path", KindFile);
    (lit "keyword", KindKeyword);
    (lit "property", KindProperty);
    (lit "statement", KindVariable)
  ].

(** [mapping.get(jedi_type, CompletionItemKind.Text)] *)
Definition map_jedi_type_to_lsp (jedi_type : str) : CompletionItemKind :=
  default KindText (jedi_type_mapping !! jedi_type).

Section Handlers.
Context `{C : Collaborators}.
Local Open Scope eff_scope.

(** One [CompletionItem(...)] of the loop; the documentation is
    [comp.docstring(raw=True) if comp.docstring() else None]. *)
Definition completion_item (comp : JediCompletion) : result CompletionItem :=
  match comp_docstring comp false with
  | Raise e => Raise e
  | Ok doc =>
      let item d :=
        {| label := comp_name comp;
           kind := map_jedi_type_to_lsp (comp_type comp);
           detail := comp_description comp;
           documentation := d;
           insert_text := comp_name comp;
           insert_text_format := PlainText;
           sort_text := comp_name comp |} in
      match doc with
      | [] => Ok (item None)
      | _ :: _ =>
          match comp_docstring comp true with
          | Raise e => Raise e
          | Ok raw => Ok (item (Some raw))
          end
      end
  end.

(** The body of the [try] of [get_python_completions]. *)
Definition complete_with_jedi (tmp_path : str) (context : CompletionContext) :
    M (list CompletionItem) :=
  component_ast <- invoke ConstructAst tmp_path
                     (construct_ast tmp_path (full_source context)) ;;
  virtual_source <- invoke AstUnparse [] (ast_unparse component_ast) ;;
  script <- invoke JediScript virtual_source (jedi_script virtual_source tmp_path) ;;
  completions <- invoke ScriptComplete []
                   (script_complete script
                      (line (original_position context) + 1)
                      (character (original_position context))) ;;
  for_each (fun comp => lift (completion_item comp)) completions.

(** The [with] block of [get_python_completions] as one outcome: the path
    of the scratch file once it is created, written and closed, and
    otherwise the exception of the step that raised. *)
Definition temp_file (content : str) : result str :=
  match named_temporary_file (lit ".cgx") with
  | Raise e => Raise e
  | Ok tmp_path =>
      match tmp_file_write tmp_path content with
      | Raise e => Raise e
      | Ok _ => Ok tmp_path
      end
  end.

(** [get_python_completions]: the scratch file is created and written in a
    [with] block before the [try] (the file is not deleted on close, so a
    [write] that raises leaves it on disk); the [except Exception] clause
    answers [[]]; the [finally] clause removes the file. *)
Definition get_python_completions (source : str) (position : Position)
    (context : CompletionContext) : M (list CompletionItem) :=
  if negb (is_python_code context) then ret []
  else
    tmp_path <- invoke NamedTemporaryFile (lit ".cgx")
                  (named_temporary_file (lit ".cgx")) ;;
    invoke TmpFileWrite (full_source context)
      (tmp_file_write tmp_path (full_source context)) ;;;
    try_finally
      (try_except (complete_with_jedi tmp_path context) (fun _ => ret []))
      (invoke Unlink tmp_path (unlink tmp_path)).

(** ** server.py *)

Definition severity_mapping : gmap (list ascii) DiagnosticSeverity :=
  list_to_map [
    (lit "error", SevError);
    (lit "warning", SevWarning);
    (lit "info", SevInformation);
    (lit "hint", SevHint)
  ].

Definition _severity_to_lsp (severity : str) : DiagnosticSeverity :=
  default SevWarning (severity_mapping !! severity).

(** One [LspDiagnostic(...)] of the loop of [validate_document]. *)
Definition to_lsp_diagnostic (diag : CgxDiagnostic) : result LspDiagnostic :=
  match mk_Position (d_line diag) (d_column diag) with
  | Raise e => Raise e
  | Ok start =>
      match mk_Position (d_end_line diag) (d_end_column diag) with
      | Raise e => Raise e
      | Ok end_ =>
          Ok {| diag_range := {| range_start := start; range_end := end_ |};
                diag_message := d_message diag;
                diag_severity := _severity_to_lsp (d_severity diag);
                diag_code := d_code diag;
                diag_source := d_source diag |}
      end
  end.

Definition is_cgx (uri : str) : bool := endswith uri (lit ".cgx").

Definition validate_document (uri : str) : M unit :=
  try_except
    (if negb (is_cgx uri) then
       log DEBUG (lit "Skipping non-CGX file: " ++ uri)
     else
       content <- invoke GetTextDocument uri (get_text_document uri) ;;
       log INFO (lit "Validating document: " ++ uri) ;;;
       diagnostics <- invoke LintCgxContent content (lint_cgx_content content) ;;
       lsp_diagnostics <- for_each (fun d => lift (to_lsp_diagnostic d)) diagnostics ;;
       emit (Publish {| pd_uri := uri; pd_diagnostics := lsp_diagnostics |}) ;;;
       log INFO (lit "Published " ++ str_of_nat (length lsp_diagnostics)
                 ++ lit " diagnostics for " ++ uri))
    (fun e =>
       log ERROR (lit "Error validating document " ++ uri ++ lit ": " ++ exn_msg e)).

Definition did_open (uri : str) : M unit :=
  log INFO (lit "Document opened: " ++ uri) ;;; validate_document uri.

Definition did_change (uri : str) : M unit :=
  log INFO (lit "Document changed: " ++ uri) ;;; validate_document uri.

Definition did_save (uri : str) : M unit :=
  log INFO (lit "Document saved: " ++ uri) ;;; validate_document uri.

Definition did_close (uri : str) : M unit :=
  log INFO (lit "Document closed: " ++ uri) ;;;
  emit (Publish {| pd_uri := uri; pd_diagnostics := [] |}).

Definition is_linebreak (c : ascii) : bool :=
  existsb (Ascii.eqb c)
    [LF; CR; "011"%char; "012"%char; "028"%char; "029"%char; "030"%char; "133"%char].

(** [content.splitlines(keepends=True)]: each line with its line boundary;
    CR LF is one boundary; no empty last line.  Of Python's boundaries,
    the two above U+00FF have no counterpart among [ascii]. *)
Fixpoint splitlines_from (cur s : str) : list str :=
  match s with
  | [] => match cur with [] => [] | _ :: _ => [cur] end
  | c :: s' =>
      if Ascii.eqb c CR then
        match s' with
        | d :: s'' =>
            if Ascii.eqb d LF then (cur ++ [c; d]) :: splitlines_from [] s''
            else (cur ++ [c]) :: splitlines_from [] s'
        | [] => [cur ++ [c]]
        end
      else if is_linebreak c then (cur ++ [c]) :: splitlines_from [] s'
      else splitlines_from (cur ++ [c]) s'
  end.

Definition splitlines_keepends (s : str) : list str := splitlines_from [] s.

(** The edit of [formatting] that replaces the whole document:
    [[
    lines = content.splitlines(keepends=True)
    last_line = len(lines) - 1
    last_char = len(lines[-1]) if lines else 0
    ]] *)
Definition whole_document_edit (content formatted_content : str) : result TextEdit :=
  let lines := splitlines_keepends content in
  let last_line := (Z.of_nat (length lines) - 1)%Z in
  let last_char := match last lines with
                   | Some l => Z.of_nat (length l)
                   | None => 0%Z
                   end in
  match mk_Position 0 0 with
  | Raise e => Raise e
  | Ok start =>
      match mk_Position last_line last_char with
      | Raise e => Raise e
      | Ok end_ =>
          Ok {| te_range := {| range_start := start; range_end := end_ |};
                te_new_text := formatted_content |}
      end
  end.

Definition formatting (uri : str) : M (list TextEdit) :=
  log INFO (lit "Formatting document: " ++ uri) ;;;
  try_except
    (if negb (is_cgx uri) then
       log DEBUG (lit "Skipping non-CGX file: " ++ uri) ;;; ret []
     else
       content <- invoke GetTextDocument uri (get_text_document uri) ;;
       formatted_content <- invoke FormatCgxContent content
                              (format_cgx_content content uri) ;;
       if bool_decide (formatted_content = content) then
         log INFO (lit "No formatting changes needed for " ++ uri) ;;; ret []
       else
         text_edit <- lift (whole_document_edit content formatted_content) ;;
         log INFO (lit "Formatted document " ++ uri) ;;;
         ret [text_edit])
    (fun e =>
       log ERROR (lit "Error formatting document " ++ uri ++ lit ": " ++ exn_msg e) ;;;
       ret []).

Definition semantic_tokens_full (uri : str) : M SemanticTokens :=
  log INFO (lit "Providing semantic tokens for: " ++ uri) ;;;
  try_except
    (if negb (is_cgx uri) then
       log DEBUG (lit "Skipping non-CGX file: " ++ uri) ;;; ret {| st_data := [] |}
     else
       content <- invoke GetTextDocument uri (get_text_document uri) ;;
       tokens <- invoke GetTokens content (get_tokens content uri) ;;
       encoded_data <- invoke EncodeTokens [] (encode_tokens tokens) ;;
       log INFO (lit "Provided " ++ str_of_nat (length tokens)
                 ++ lit " semantic tokens for " ++ uri) ;;;
       ret {| st_data := encoded_data |})
    (fun e =>
       log ERROR (lit "Error providing semantic tokens for " ++ uri ++ lit ": "
                  ++ exn_msg e) ;;;
       ret {| st_data := [] |}).

End Handlers.

(** Running a handler from the empty trace. *)
Definition run {A} (m : M A) : trace * result A := m [].

(** ** Vocabulary of the properties *)

(** Whether a content span holds an offset, both ends included. *)
Definition span_contains (o : nat) (r : nat * nat) : bool :=
  (fst r <=? o) && (o <=? snd r).

(** What a match of the scan says about the text: where the two tags are
    and which offsets the content span holds. *)
Record tag_pair (text : str) (m : Match) (s e : nat) : Prop := {
  tp_start1 : m_start1 m = Some s;
  tp_end1 : m_end1 m = Some e;
  tp_open : startswith (lit "<script") (drop (m_start m) text) = true;
  tp_open_len : m_start m + 8 <= s;
  tp_gt : text !! (s - 1) = Some ">"%char;
  tp_order : s <= e;
  tp_close : startswith (lit "</script>") (drop e text) = true;
  tp_end : m_end m = e + 9;
  tp_inside : m_end m <= length text
}.



(** The conversions of the loop, without the trace. *)
Fixpoint completion_items `{C : Collaborators} (completions : list JediCompletion) :
    result (list CompletionItem) :=
  match completions with
  | [] => Ok []
  | comp :: rest =>
      match completion_item comp with
      | Raise e => Raise e
      | Ok item =>
          match completion_items rest with
          | Raise e => Raise e
          | Ok items => Ok (item :: items)
          end
      end
  end.


(** Collaborators for the examples: a workspace that holds one document,
    a formatter and a [construct_ast] with a fixed outcome, and nothing to
    report otherwise. *)
Definition example_collaborators (document : str) (formatted : result str)
    (ast : result unit) : Collaborators :=
  {| Ast := unit; Script := unit; Token := unit;
     get_text_document := fun _ => Ok document;
     lint_cgx_content := fun _ => Ok [];
     format_cgx_content := fun _ _ => formatted;
     get_tokens := fun _ _ => Ok [];
     encode_tokens := fun _ => Ok [];
     named_temporary_file := fun _ => Ok (lit "/tmp/tmpk3v9.cgx");
     tmp_file_write := fun _ _ => Ok tt;
     unlink := fun _ => Ok tt;
     construct_ast := fun _ _ => ast;
     ast_unparse := fun _ => Ok [];
     jedi_script := fun _ _ => Ok tt;
     script_complete := fun _ _ _ => Ok [] |}.


(** The lines of a test document, joined by line feeds. *)
Fixpoint join_lines (lines : list str) : str :=
  match lines with
  | [] => []
  | [l] => l
  | l :: ls => l ++ LF :: join_lines ls
  end.

Definition template_and_script : str :=
  join_lines [lit "<template>"; lit "  <div>Hello</div>"; lit "</template>";
              lit "<script>"; lit "import os"; lit "x = 10"; lit "</script>"].

(** A match that ends before another begins. *)
Definition match_before (m1 m2 : Match) : Prop := m_end m1 <= m_start m2.

(** A region whose closing tag, and the opening tag of the next region,
    lie before the content of that next region. *)
Definition region_before (r1 r2 : nat * nat) : Prop := snd r1 + 17 <= fst r2.

(** The events of the body of the [try] of [get_python_completions]. *)
Definition is_analysis_call (ev : event) : Prop :=
  exists c arg, ev = Invoke c arg /\
                c ∈ [ConstructAst; AstUnparse; JediScript; ScriptComplete].

(** What one item of the answer is, given the completion it comes from. *)
Definition item_of_completion (comp : JediCompletion) (item : CompletionItem) : Prop :=
  label item = comp_name comp /\
  kind item = map_jedi_type_to_lsp (comp_type comp) /\
  detail item = comp_description comp /\
  insert_text item = comp_name comp /\
  insert_text_format item = PlainText /\
  sort_text item = comp_name comp /\
  (comp_docstring comp false = Ok [] /\ documentation item = None \/
   exists doc raw, comp_docstring comp false = Ok doc /\ doc <> [] /\
                   comp_docstring comp true = Ok raw /\
                   documentation item = Some raw).

(** Collaborators for the examples: the scratch file is created and cannot
    be written. *)
Definition full_disk_collaborators : Collaborators :=
  {| Ast := unit; Script := unit; Token := unit;
     get_text_document := fun _ => Ok [];
     lint_cgx_content := fun _ => Ok [];
     format_cgx_content := fun _ _ => Ok [];
     get_tokens := fun _ _ => Ok [];
     encode_tokens := fun _ => Ok [];
     named_temporary_file := fun _ => Ok (lit "/tmp/tmpk3v9.cgx");
     tmp_file_write := fun _ _ => Raise (Exception (lit "No space left on device"));
     unlink := fun _ => Ok tt;
     construct_ast := fun _ _ => Ok tt;
     ast_unparse := fun _ => Ok [];
     jedi_script := fun _ _ => Ok tt;
     script_complete := fun _ _ _ => Ok [] |}.

(** Two completions as Jedi gives them after [os.]. *)
Definition os_completions : list JediCompletion :=
  [ {| comp_name := lit "path"; comp_type := lit "module";
       comp_description := lit "module path";
       comp_docstring := fun _ => Ok (lit "Common operations on pathnames.") |};
    {| comp_name := lit "getcwd"; comp_type := lit "function";
       comp_description := lit "def getcwd";
       comp_docstring := fun _ => Ok [] |} ].

(** Collaborators for the examples: every call succeeds and Jedi answers
    [os_completions]. *)
Definition working_collaborators : Collaborators :=
  {| Ast := unit; Script := unit; Token := unit;
     get_text_document := fun _ => Ok [];
     lint_cgx_content := fun _ => Ok [];
     format_cgx_content := fun _ _ => Ok [];
     get_tokens := fun _ _ => Ok [];
     encode_tokens := fun _ => Ok [];
     named_temporary_file := fun _ => Ok (lit "/tmp/tmpk3v9.cgx");
     tmp_file_write := fun _ _ => Ok tt;
     unlink := fun _ => Ok tt;
     construct_ast := fun _ _ => Ok tt;
     ast_unparse := fun _ => Ok (lit "import os");
     jedi_script := fun _ _ => Ok tt;
     script_complete := fun _ _ _ => Ok os_completions |}.

(** The notifications a trace holds, in the order they were published. *)
Definition published (t : trace) : list PublishDiagnosticsParams :=
  omap (fun ev => match ev with Publish params => Some params | _ => None end) t.

(** A loop of conversions, without the trace: the converted list, or the
    exception of the first element that cannot be converted. *)
Fixpoint map_result {A B} (f : A -> result B) (l : list A) : result (list B) :=
  match l with
  | [] => Ok []
  | a :: l' =>
      match f a with
      | Raise e => Raise e
      | Ok b =>
          match map_result f l' with
          | Raise e => Raise e
          | Ok bs => Ok (b :: bs)
          end
      end
  end.

(** A value lsprotocol accepts as an unsigned integer. *)
Definition is_uinteger (v : Z) : Prop := (0 <= v <= UINTEGER_MAX_VALUE)%Z.

(** A diagnostic of the linter whose four coordinates are unsigned
    integers. *)
Definition diagnostic_in_range (d : CgxDiagnostic) : Prop :=
  is_uinteger (d_line d) /\ is_uinteger (d_column d) /\
  is_uinteger (d_end_line d) /\ is_uinteger (d_end_column d).

(** The protocol diagnostic of a diagnostic of the linter. *)
Definition lsp_diagnostic_of (d : CgxDiagnostic) : LspDiagnostic :=
  {| diag_range :=
       {| range_start := {| line := Z.to_nat (d_line d);
                            character := Z.to_nat (d_column d) |};
          range_end := {| line := Z.to_nat (d_end_line d);
                          character := Z.to_nat (d_end_column d) |} |};
     diag_message := d_message d;
     diag_severity := _severity_to_lsp (d_severity d);
     diag_code := d_code d;
     diag_source := d_source d |}.

(** Collaborators for the examples: the workspace holds one document and
    the linter answers the given diagnostics. *)
Definition linting_collaborators (document : str) (diags : list CgxDiagnostic) :
    Collaborators :=
  {| Ast := unit; Script := unit; Token := unit;
     get_text_document := fun _ => Ok document;
     lint_cgx_content := fun _ => Ok diags;
     format_cgx_content := fun _ _ => Ok document;
     get_tokens := fun _ _ => Ok [];
     encode_tokens := fun _ => Ok [];
     named_temporary_file := fun _ => Ok (lit "/tmp/tmpk3v9.cgx");
     tmp_file_write := fun _ _ => Ok tt;
     unlink := fun _ => Ok tt;
     construct_ast := fun _ _ => Ok tt;
     ast_unparse := fun _ => Ok [];
     jedi_script := fun _ _ => Ok tt;
     script_complete := fun _ _ _ => Ok [] |}.

(** An unused import on line 5, and a diagnostic placed before the first
    line. *)
Definition unused_import : CgxDiagnostic :=
  {| d_line := 5; d_column := 7; d_end_line := 5; d_end_column := 9;
     d_message := lit "`os` imported but unused"; d_severity := lit "warning";
     d_code := lit "F401"; d_source := lit "ruff-cgx" |}.

Definition misplaced_diagnostic : CgxDiagnostic :=
  {| d_line := -1; d_column := 0; d_end_line := 0; d_end_column := 0;
     d_message := lit "SyntaxError"; d_severity := lit "error";
     d_code := lit "E999"; d_source := lit "ruff-cgx" |}.

(** A text whose only line boundary is the line feed. *)
Definition lf_only (s : str) : Prop :=
  Forall (fun c => is_linebreak c = true -> c = LF) s.

(** The pieces of [split_lines] with their line feeds put back: every
    piece but the last ends a line, and an empty last piece is no line. *)
Fixpoint keepends (pieces : list str) : list str :=
  match pieces with
  | [] => []
  | l :: ls =>
      match ls with
      | [] => match l with [] => [] | _ :: _ => [l] end
      | _ :: _ => (l ++ [LF]) :: keepends ls
      end
  end.

(** * Properties *)

(** ** The repository's tests, on the model *)

(** [test_detect_script_region], [test_analyze_context_script_section] *)
Example test_detect_script_region :
  is_in_script_region template_and_script {| line := 4; character := 7 |} = true /\
  is_in_script_region template_and_script {| line := 1; character := 5 |} = false /\
  is_python_code (analyze_context template_and_script {| line := 4; character := 7 |})
    = true /\
  full_source (analyze_context template_and_script {| line := 4; character := 7 |})
    = template_and_script.
Proof. repeat split; reflexivity. Qed.

(** [test_malformed_cgx_file]: no closing tag, no region, no crash. *)
Example test_malformed_cgx_file :
  is_python_code
    (analyze_context (join_lines [lit "<script>import os"; lit "os."])
       {| line := 1; character := 3 |}) = false.
Proof. reflexivity. Qed.

(** [test_script_with_type_attribute] *)
Example test_script_with_type_attribute :
  is_in_script_region
    (join_lines [lit "<script type=" ++ ["034"%char] ++ lit "text/python"
                 ++ ["034"%char] ++ lit ">";
                 lit "import os"; lit "os.path"; lit "</script>"])
    {| line := 2; character := 3 |} = true.
Proof. reflexivity. Qed.

(** [test_multiple_script_sections] *)
Example test_multiple_script_sections :
  let source :=
    join_lines [lit "<script>"; lit "import os"; lit "</script>";
                lit "<template>"; lit "    <div>Test</div>"; lit "</template>";
                lit "<script>"; lit "import sys"; lit "</script>"] in
  is_in_script_region source {| line := 1; character := 7 |} = true /\
  is_in_script_region source {| line := 7; character := 7 |} = true /\
  is_in_script_region source {| line := 4; character := 5 |} = false.
Proof. repeat split; reflexivity. Qed.

(** [test_position_to_offset_multiline] *)
Example test_position_to_offset_multiline :
  let source := join_lines [lit "line1"; lit "line2"; lit "line3"] in
  position_to_offset source {| line := 0; character := 0 |} = 0 /\
  position_to_offset source {| line := 1; character := 0 |} = 6 /\
  position_to_offset source {| line := 1; character := 3 |} = 9.
Proof. repeat split; reflexivity. Qed.

(** [test_cursor_on_script_tag_boundary] *)
Example test_cursor_on_script_tag_boundary :
  let source := join_lines [lit "<script>"; lit "import os"; lit "</script>"; []] in
  is_in_script_region source {| line := 1; character := 0 |} = true /\
  is_in_script_region source {| line := 1; character := 9 |} = true /\
  is_in_script_region source {| line := 0; character := 5 |} = false.
Proof. repeat split; reflexivity. Qed.

(** [test_severity_conversion] *)
Example test_severity_conversion :
  _severity_to_lsp (lit "error") = SevError /\
  _severity_to_lsp (lit "warning") = SevWarning /\
  _severity_to_lsp (lit "info") = SevInformation /\
  _severity_to_lsp (lit "hint") = SevHint /\
  _severity_to_lsp (lit "unknown") = SevWarning.
Proof. repeat split; vm_compute; reflexivity. Qed.

(** [test_non_cgx_file_skipped] *)
Example test_non_cgx_file_skipped :
  let C := example_collaborators [] (Ok []) (Ok tt) in
  run (validate_document (lit "file:///test.py")) =
  ([Log DEBUG (lit "Skipping non-CGX file: file:///test.py")], Ok tt).
Proof. reflexivity. Qed.

(** ** Lines and offsets *)

Lemma split_lines_nonempty (s : str) : split_lines s <> [].
Proof.
  destruct s as [|c s]; simpl; [discriminate|].
  destruct (Ascii.eqb c LF); [discriminate|].
  destruct (split_lines s); discriminate.
Qed.

(** Every character is counted once and every line pays one separator. *)
Lemma sum_split_lines (s : str) :
  sum_list_with (fun l : str => length l + 1) (split_lines s) = length s + 1.
Proof.
  induction s as [|c s IH]; simpl; [reflexivity|].
  destruct (Ascii.eqb c LF); simpl; [lia|].
  destruct (split_lines s) as [|l ls] eqn:E.
  - exfalso. exact (split_lines_nonempty s E).
  - simpl in *. lia.
Qed.

Lemma sum_take_le {A} (f : A -> nat) (n : nat) (l : list A) :
  sum_list_with f (take n l) <= sum_list_with f l.
Proof.
  rewrite <- (take_drop n l) at 2. rewrite sum_list_with_app. lia.
Qed.

Lemma sum_take_mono {A} (f : A -> nat) (n m : nat) (l : list A) :
  n <= m -> sum_list_with f (take n l) <= sum_list_with f (take m l).
Proof.
  intros H. replace (take n l) with (take n (take m l)).
  - apply sum_take_le.
  - rewrite take_take. f_equal. lia.
Qed.

Lemma sum_take_S {A} (f : A -> nat) (n : nat) (l : list A) (x : A) :
  l !! n = Some x ->
  sum_list_with f (take (S n) l) = sum_list_with f (take n l) + f x.
Proof.
  intros H. rewrite (take_S_r l n x H), sum_list_with_app. simpl. lia.
Qed.

Local Ltac beta_all := repeat match goal with H : _ |- _ => progress cbv beta in H end.

Lemma position_to_offset_at_offset (s : str) (o : nat) :
  position_to_offset s (at_offset o) = o.
Proof. reflexivity. Qed.

Lemma position_to_offset_upper (s : str) (p : Position) :
  position_to_offset s p <= length s + 1 + character p.
Proof.
  unfold position_to_offset.
  pose proof (sum_take_le (fun l : str => length l + 1) (line p) (split_lines s)) as H.
  rewrite sum_split_lines in H. lia.
Qed.

Lemma position_to_offset_past_last_line (s : str) (p : Position) :
  length (split_lines s) <= line p ->
  position_to_offset s p = length s + 1 + character p.
Proof.
  intros H. unfold position_to_offset.
  rewrite take_ge by exact H. rewrite sum_split_lines. reflexivity.
Qed.

Lemma position_to_offset_in_bounds (s : str) (p : Position) :
  in_bounds s p -> position_to_offset s p <= length s.
Proof.
  intros (l & Hl & Hc). unfold position_to_offset.
  pose proof (sum_take_S (fun l : str => length l + 1) _ _ _ Hl) as HS.
  pose proof (sum_take_le (fun l : str => length l + 1) (S (line p)) (split_lines s)) as H.
  rewrite sum_split_lines in H. beta_all. lia.
Qed.

(** Moving forward from a position within bounds strictly increases the
    offset; the later position needs no bound. *)
Lemma position_to_offset_strict (t : str) (p q : Position) :
  in_bounds t p ->
  line p < line q \/ (line p = line q /\ character p < character q) ->
  position_to_offset t p < position_to_offset t q.
Proof.
  intros (l & Hl & Hc) [Hlt | [Heq Hlt]]; unfold position_to_offset.
  - pose proof (sum_take_S (fun l : str => length l + 1) _ _ _ Hl) as HS.
    pose proof (sum_take_mono (fun l : str => length l + 1)
                  (S (line p)) (line q) (split_lines t) ltac:(lia)) as HM.
    beta_all. lia.
  - rewrite Heq. lia.
Qed.

(** ** The matcher on the script pattern *)

Lemma match_literal (l : str) (p : pattern) (s : str) (pos : nat) (g : captures) :
  match_items (literal l ++ p) s pos g =
  if startswith l s then match_items p (drop (length l) s) (pos + length l) g
  else None.
Proof.
  revert s pos. induction l as [|a l IH]; intros s pos; simpl.
  - rewrite Nat.add_0_r. reflexivity.
  - destruct s as [|c s]; [reflexivity|]. simpl.
    rewrite (Ascii.eqb_sym c a). destruct (Ascii.eqb a c); simpl; [|reflexivity].
    rewrite IH. replace (S pos + length l) with (pos + S (length l)) by lia.
    reflexivity.
Qed.

(** The greedy class [[^x]*] followed by [x] stops at the first [x]: giving
    characters back never helps, since each of them differs from [x]. *)
Lemma greedy_until (x : ascii) (p : pattern) (s : str) (pos : nat) (g : captures) :
  greedy (NotChr x) (match_items (One (Chr x) :: p)) s pos g =
  match index_of x s with
  | Some j => match_items p (drop (S j) s) (pos + S j) g
  | None => None
  end.
Proof.
  revert pos. induction s as [|c s IH]; intros pos; [reflexivity|].
  cbn [greedy index_of in_class match_items]. fold (greedy (NotChr x)).
  destruct (Ascii.eqb c x) eqn:E; cbn [negb].
  - cbn. replace (pos + 1) with (S pos) by lia. reflexivity.
  - rewrite IH. destruct (index_of x s) as [j|]; cbn; [|reflexivity].
    replace (S (pos + S j)) with (pos + S (S j)) by lia.
    destruct (match_items p (drop (S j) s) (pos + S (S j)) g); reflexivity.
Qed.

(** The lazy [.*?] followed by the closing group and a literal stops at
    the first occurrence of the literal. *)
Lemma lazy_until (l : str) (s : str) (pos : nat) (g : captures) :
  lazy AnyChr (match_items (GroupEnd :: literal l)) s pos g =
  match find_sub l s with
  | Some k =>
      Some {| m_start := c_begin g; m_end := pos + k + length l;
              m_start1 := c_start1 g; m_end1 := Some (pos + k) |}
  | None => None
  end.
Proof.
  assert (K : forall s pos,
    match_items (GroupEnd :: literal l) s pos g =
    if startswith l s
    then Some {| m_start := c_begin g; m_end := pos + length l;
                 m_start1 := c_start1 g; m_end1 := Some pos |}
    else None).
  { intros s0 pos0. cbn [match_items].
    rewrite <- (app_nil_r (literal l)), match_literal.
    destruct (startswith l s0); reflexivity. }
  revert pos. induction s as [|c s IH]; intros pos.
  - cbn [lazy find_sub]. rewrite K.
    destruct (startswith l []); [|reflexivity].
    rewrite Nat.add_0_r. reflexivity.
  - cbn [lazy find_sub in_class]. fold (lazy AnyChr). rewrite K.
    destruct (startswith l (c :: s)).
    + rewrite Nat.add_0_r. reflexivity.
    + rewrite IH. destruct (find_sub l s) as [k|]; cbn; [|reflexivity].
      repeat f_equal; lia.
Qed.

Lemma match_items_greedy (k : charclass) (p : pattern) :
  match_items (GreedyStar k :: p) = greedy k (match_items p).
Proof. reflexivity. Qed.

Lemma match_items_group_lazy (k : charclass) (p : pattern) (s : str) (pos : nat)
    (g : captures) :
  match_items (GroupStart :: LazyStar k :: p) s pos g =
  lazy k (match_items p) s pos
    {| c_begin := c_begin g; c_start1 := Some pos; c_end1 := c_end1 g |}.
Proof. reflexivity. Qed.

(** One anchored attempt of the pattern is the two-pass scan. *)
Lemma match_at_script (s : str) (pos : nat) :
  match_at script_pattern s pos = tag_pair_at s pos.
Proof.
  unfold match_at, script_pattern, tag_pair_at.
  rewrite match_literal.
  destruct (startswith (lit "<script") s); [|reflexivity].
  change (length (lit "<script")) with 7.
  change (([GreedyStar (NotChr ">"); One (Chr ">")] ++
           [GroupStart; LazyStar AnyChr; GroupEnd] ++ literal (lit "</script>")))
    with (GreedyStar (NotChr ">") :: One (Chr ">") :: GroupStart
          :: LazyStar AnyChr :: GroupEnd :: literal (lit "</script>")).
  rewrite match_items_greedy, greedy_until.
  destruct (index_of ">" (drop 7 s)) as [j|]; [|reflexivity].
  rewrite match_items_group_lazy, lazy_until, drop_drop.
  replace (7 + S j) with (8 + j) by lia.
  destruct (find_sub (lit "</script>") (drop (8 + j) s)) as [k|]; [|reflexivity].
  cbn [c_begin c_start1]. change (length (lit "</script>")) with 9.
  replace (pos + 7 + S j) with (pos + (8 + j)) by lia. reflexivity.
Qed.

(** ** Occurrences *)

Lemma startswith_app (p r : str) : startswith p (p ++ r) = true.
Proof.
  induction p as [|a p IH]; simpl; [reflexivity|].
  rewrite Ascii.eqb_refl. exact IH.
Qed.

Lemma startswith_inv (p s : str) : startswith p s = true -> s = p ++ drop (length p) s.
Proof.
  revert s. induction p as [|a p IH]; intros s H; simpl in *; [reflexivity|].
  destruct s as [|b s]; [discriminate|].
  apply andb_prop in H as [Hab Hp]. apply Ascii.eqb_eq in Hab. subst b.
  simpl. f_equal. apply IH, Hp.
Qed.

Lemma startswith_length (p s : str) : startswith p s = true -> length p <= length s.
Proof.
  intros H. rewrite (startswith_inv p s H), length_app. lia.
Qed.

Lemma startswith_head (a : ascii) (p s : str) :
  startswith (a :: p) s = true -> s !! 0 = Some a.
Proof.
  destruct s as [|b s]; simpl; [discriminate|].
  intros H. apply andb_prop in H as [Hab _]. apply Ascii.eqb_eq in Hab. congruence.
Qed.

Lemma find_sub_Some (n s : str) (k : nat) :
  find_sub n s = Some k -> startswith n (drop k s) = true.
Proof.
  revert k. induction s as [|c s IH]; intros k; simpl.
  - destruct (startswith n []) eqn:E; [|discriminate].
    intros [= <-]. exact E.
  - destruct (startswith n (c :: s)) eqn:E.
    + intros [= <-]. exact E.
    + destruct (find_sub n s) as [k'|]; [|discriminate].
      intros [= <-]. simpl. apply IH. reflexivity.
Qed.

(** [find_sub] returns the first occurrence. *)
Lemma find_sub_first (n s : str) (k i : nat) :
  find_sub n s = Some k -> startswith n (drop i s) = true -> k <= i.
Proof.
  revert k i. induction s as [|c s IH]; intros k i; simpl.
  - destruct (startswith n []); [|discriminate]. intros [= <-] _. lia.
  - destruct (startswith n (c :: s)) eqn:E.
    + intros [= <-] _. lia.
    + destruct (find_sub n s) as [k'|] eqn:F; [|discriminate].
      intros [= <-] H. destruct i as [|i]; simpl in H; [congruence|].
      specialize (IH k' i eq_refl H). lia.
Qed.

Lemma find_sub_None (n s : str) (i : nat) :
  find_sub n s = None -> startswith n (drop i s) = false.
Proof.
  revert i. induction s as [|c s IH]; intros i; simpl.
  - destruct (startswith n []) eqn:E; [discriminate|].
    intros _. rewrite drop_nil. exact E.
  - destruct (startswith n (c :: s)) eqn:E; [discriminate|].
    destruct (find_sub n s) as [k'|] eqn:F; [discriminate|].
    intros _. destruct i as [|i]; simpl; [exact E | apply IH; reflexivity].
Qed.

Lemma find_sub_is_Some (n s : str) (i : nat) :
  startswith n (drop i s) = true -> exists k, find_sub n s = Some k /\ k <= i.
Proof.
  intros H. destruct (find_sub n s) as [k|] eqn:F.
  - exists k. split; [reflexivity|]. eapply find_sub_first; eassumption.
  - rewrite (find_sub_None n s i F) in H. discriminate.
Qed.

Lemma find_sub_drop_None (n s : str) (x : nat) :
  find_sub n s = None -> find_sub n (drop x s) = None.
Proof.
  intros H. destruct (find_sub n (drop x s)) as [k|] eqn:F; [|reflexivity].
  apply find_sub_Some in F. rewrite drop_drop in F.
  rewrite (find_sub_None n s _ H) in F. discriminate.
Qed.

Lemma find_sub_bound (n s : str) (k : nat) :
  n <> [] -> find_sub n s = Some k -> k + length n <= length s.
Proof.
  intros Hn H. apply find_sub_Some in H.
  pose proof (startswith_length _ _ H) as L. rewrite length_drop in L.
  destruct n; [congruence|]. simpl in L. simpl. lia.
Qed.

Lemma index_of_lookup (c : ascii) (s : str) (j : nat) :
  index_of c s = Some j -> s !! j = Some c.
Proof.
  revert j. induction s as [|a s IH]; intros j; simpl; [discriminate|].
  destruct (Ascii.eqb a c) eqn:E.
  - intros [= <-]. apply Ascii.eqb_eq in E. subst. reflexivity.
  - destruct (index_of c s) as [j'|]; [|discriminate].
    intros [= <-]. simpl. apply IH. reflexivity.
Qed.

(** [index_of] returns the first occurrence. *)
Lemma index_of_first (c : ascii) (s : str) (i : nat) :
  s !! i = Some c -> exists j, index_of c s = Some j /\ j <= i.
Proof.
  revert i. induction s as [|a s IH]; intros i H; [discriminate|]. simpl.
  destruct (Ascii.eqb a c) eqn:E.
  - exists 0. split; [reflexivity | lia].
  - destruct i as [|i]; simpl in H.
    + injection H as ->. rewrite Ascii.eqb_refl in E. discriminate.
    + destruct (IH i H) as (j & -> & Hj). exists (S j). split; [reflexivity | lia].
Qed.

Lemma index_of_app (c : ascii) (w r : str) :
  c ∉ w -> index_of c (w ++ c :: r) = Some (length w).
Proof.
  induction w as [|a w IH]; intros H; simpl.
  - rewrite Ascii.eqb_refl. reflexivity.
  - destruct (Ascii.eqb a c) eqn:E.
    + apply Ascii.eqb_eq in E. subst. exfalso. apply H. left.
    + rewrite IH; [reflexivity|]. intros Hin. apply H. right. exact Hin.
Qed.

(** ** The scan *)

Lemma tag_pair_at_inv (s : str) (pos : nat) (m : Match) :
  tag_pair_at s pos = Some m ->
  exists j k,
    startswith (lit "<script") s = true /\
    index_of ">"%char (drop 7 s) = Some j /\
    find_sub (lit "</script>") (drop (8 + j) s) = Some k /\
    m = {| m_start := pos; m_end := pos + (8 + j) + k + 9;
           m_start1 := Some (pos + (8 + j));
           m_end1 := Some (pos + (8 + j) + k) |}.
Proof.
  unfold tag_pair_at. intros H.
  destruct (startswith (lit "<script") s) eqn:E0; [|discriminate].
  destruct (index_of ">" (drop 7 s)) as [j|] eqn:E1; [|discriminate].
  destruct (find_sub (lit "</script>") (drop (8 + j) s)) as [k|] eqn:E2; [|discriminate].
  injection H as <-. exists j, k. auto.
Qed.

Lemma tag_pair_at_nil (pos : nat) : tag_pair_at [] pos = None.
Proof. reflexivity. Qed.

Lemma finditer_from_nil (pos skip : nat) : finditer_from script_pattern [] pos skip = [].
Proof. destruct skip; reflexivity. Qed.

Lemma finditer_from_cons (c : ascii) (s : str) (pos : nat) :
  finditer_from script_pattern (c :: s) pos 0 =
  match tag_pair_at (c :: s) pos with
  | Some m => m :: finditer_from script_pattern s (S pos) (m_end m - pos - 1)
  | None => finditer_from script_pattern s (S pos) 0
  end.
Proof.
  cbn [finditer_from]. rewrite match_at_script.
  destruct (tag_pair_at (c :: s) pos); reflexivity.
Qed.

Lemma finditer_from_skip (c : ascii) (s : str) (pos k : nat) :
  finditer_from script_pattern (c :: s) pos (S k) =
  finditer_from script_pattern s (S pos) k.
Proof. reflexivity. Qed.

(** Every match of the scan is an anchored match at some offset. *)
Lemma finditer_from_sound (s : str) (pos skip : nat) (m : Match) :
  m ∈ finditer_from script_pattern s pos skip ->
  exists i, tag_pair_at (drop i s) (pos + i) = Some m.
Proof.
  revert pos skip. induction s as [|c s IH]; intros pos skip H.
  - rewrite finditer_from_nil in H. inversion H.
  - destruct skip as [|k].
    + rewrite finditer_from_cons in H.
      destruct (tag_pair_at (c :: s) pos) as [m0|] eqn:E.
      * apply elem_of_cons in H as [-> | H].
        -- exists 0. rewrite Nat.add_0_r. exact E.
        -- destruct (IH _ _ H) as [i Hi]. exists (S i).
           replace (pos + S i) with (S pos + i) by lia. exact Hi.
      * destruct (IH _ _ H) as [i Hi]. exists (S i).
        replace (pos + S i) with (S pos + i) by lia. exact Hi.
    + rewrite finditer_from_skip in H.
      destruct (IH _ _ H) as [i Hi]. exists (S i).
      replace (pos + S i) with (S pos + i) by lia. exact Hi.
Qed.

Lemma finditer_tag_pair (text : str) (m : Match) :
  m ∈ finditer script_pattern text -> exists s e, tag_pair text m s e.
Proof.
  intros H. apply finditer_from_sound in H as [i H]. simpl in H.
  apply tag_pair_at_inv in H as (j & k & Ho & Hj & Hk & ->).
  exists (i + (8 + j)), (i + (8 + j) + k).
  pose proof (find_sub_Some _ _ _ Hk) as Hc. rewrite !drop_drop in Hc.
  apply index_of_lookup in Hj. rewrite lookup_drop in Hj.
  split; cbn [m_start m_end m_start1 m_end1]; try reflexivity; try lia.
  - exact Ho.
  - rewrite lookup_drop in Hj. rewrite <- Hj. f_equal. lia.
  - replace (i + (8 + j) + k) with (i + (8 + j + k)) by lia. exact Hc.
  - apply startswith_length in Hc. rewrite length_drop in Hc.
    change (length (lit "</script>")) with 9 in Hc. lia.
Qed.

(** ** Classification *)

(** The loop over the matches, read on the regions. *)
Lemma is_in_script_region_regions (text : str) (p : Position) :
  is_in_script_region text p =
  existsb (span_contains (position_to_offset text p)) (find_regions text).
Proof.
  unfold is_in_script_region, find_regions.
  induction (finditer script_pattern text) as [|m ms IH]; [reflexivity|].
  cbn [existsb omap list_omap]. rewrite IH. unfold span1_contains.
  destruct (m_start1 m) as [s|], (m_end1 m) as [e|]; reflexivity.
Qed.

Lemma is_in_script_region_true (text : str) (p : Position) :
  is_in_script_region text p = true <->
  exists s e, (s, e) ∈ find_regions text /\
              s <= position_to_offset text p <= e.
Proof.
  rewrite is_in_script_region_regions, existsb_exists. split.
  - intros ([s e] & Hin & H). apply list_elem_of_In in Hin.
    unfold span_contains in H. cbn in H.
    apply andb_prop in H as [H1 H2].
    apply Nat.leb_le in H1, H2. exists s, e. auto.
  - intros (s & e & Hin & H1 & H2). exists (s, e). split.
    + apply list_elem_of_In, Hin.
    + unfold span_contains. cbn.
      apply andb_true_intro. split; apply Nat.leb_le; assumption.
Qed.

Lemma is_in_script_region_false (text : str) (p : Position) :
  (forall s e, (s, e) ∈ find_regions text ->
               position_to_offset text p < s \/ e < position_to_offset text p) ->
  is_in_script_region text p = false.
Proof.
  intros H. destruct (is_in_script_region text p) eqn:E; [|reflexivity].
  apply is_in_script_region_true in E as (s & e & Hin & H1).
  destruct (H s e Hin); lia.
Qed.

Lemma is_python_code_analyze (source : str) (position : Position) :
  is_python_code (analyze_context source position) =
  is_in_script_region source position.
Proof.
  unfold analyze_context. destruct (is_in_script_region source position); reflexivity.
Qed.

Lemma region_tag_pair (text : str) (s e : nat) :
  (s, e) ∈ find_regions text ->
  exists m, m ∈ finditer script_pattern text /\ tag_pair text m s e.
Proof.
  unfold find_regions. intros H.
  apply list_elem_of_omap in H as (m & Hm & Hse).
  exists m. split; [exact Hm|].
  destruct (finditer_tag_pair text m Hm) as (s' & e' & T).
  rewrite (tp_start1 _ _ _ _ T), (tp_end1 _ _ _ _ T) in Hse.
  injection Hse as <- <-. exact T.
Qed.

Lemma startswith_lookup (p s : str) (d : nat) :
  startswith p s = true -> d < length p -> s !! d = p !! d.
Proof.
  intros H Hd. rewrite (startswith_inv p s H). apply lookup_app_l, Hd.
Qed.

(** A closing tag cannot run into an opening tag: [<] occurs in
    [</script>] at its first character only. *)
Lemma close_before_open (text : str) (e i : nat) :
  startswith (lit "</script>") (drop e text) = true ->
  startswith (lit "<script") (drop i text) = true ->
  e < i -> e + 9 <= i.
Proof.
  intros Hc Ho Hlt.
  destruct (Nat.le_gt_cases (e + 9) i) as [|Hov]; [assumption|exfalso].
  pose proof (startswith_lookup _ _ 0 Ho ltac:(cbn; lia)) as H0.
  pose proof (startswith_lookup _ _ (i - e) Hc ltac:(cbn; lia)) as H1.
  rewrite lookup_drop in H0, H1.
  replace (e + (i - e)) with (i + 0) in H1 by lia.
  rewrite H0 in H1.
  destruct (i - e) as [|[|[|[|[|[|[|[|[|d]]]]]]]]] eqn:D;
    cbn in H1; try discriminate; lia.
Qed.

(** ** Offset translator: the claims *)

(** C1, as stated, fails: nothing clamps the result.  On the text [abc]
    (length 3) a character past the end of line 0 is added as it is, and a
    line past the last one contributes the whole text and its separator. *)
Lemma position_to_offset_exceeds_length :
  let t := lit "abc" in
  position_to_offset t {| line := 0; character := 10 |} = 10 /\
  length (split_lines t) <= 5 /\
  position_to_offset t {| line := 5; character := 0 |} = 4 /\
  ~ position_to_offset t {| line := 0; character := 10 |} <= length t /\
  ~ position_to_offset t {| line := 5; character := 0 |} <= length t.
Proof. cbn. repeat split; lia. Qed.

(** C1 (amended): [position_to_offset] is total, so it never throws, and it
    does not clamp.  The character is added unchanged, whatever the length
    of the line: the offset is the offset of the start of the line plus
    the character.  The lines before the position contribute at most the
    whole text and one separator, exactly that once the line is past the
    last one.  So the offset is at most [len(text) + 1 + character]; it
    stays within [len(text)] for the positions within bounds, and a
    character past the end of its line moves the offset past the end of
    the line by as much. *)
Theorem position_to_offset_total_unclamped (t : str) (p : Position) :
  position_to_offset t p =
    position_to_offset t {| line := line p; character := 0 |} + character p /\
  position_to_offset t {| line := line p; character := 0 |} <= length t + 1 /\
  (length (split_lines t) <= line p ->
   position_to_offset t p = length t + 1 + character p) /\
  (in_bounds t p -> position_to_offset t p <= length t) /\
  (forall l, split_lines t !! line p = Some l -> length l < character p ->
     position_to_offset t p =
     position_to_offset t {| line := line p; character := length l |}
     + (character p - length l)).
Proof.
  split; [unfold position_to_offset; cbn [line character]; lia|].
  split.
  { pose proof (position_to_offset_upper t {| line := line p; character := 0 |}) as H.
    cbn [character] in H. lia. }
  split; [apply position_to_offset_past_last_line|].
  split; [apply position_to_offset_in_bounds|].
  intros l _ Hlt. unfold position_to_offset. cbn [line character]. lia.
Qed.

Lemma position_to_offset_total_unclamped_witness :
  let t := lit "ab" ++ [LF] ++ lit "cd" in
  position_to_offset t {| line := 7; character := 3 |} = 9 /\
  position_to_offset t {| line := 1; character := 2 |} <= 5 /\
  position_to_offset t {| line := 0; character := 10 |} =
    position_to_offset t {| line := 0; character := 2 |} + (10 - 2).
Proof.
  split; [|split].
  - apply (proj1 (proj2 (proj2 (position_to_offset_total_unclamped
             (lit "ab" ++ [LF] ++ lit "cd") {| line := 7; character := 3 |})))).
    cbn. lia.
  - apply (proj1 (proj2 (proj2 (proj2 (position_to_offset_total_unclamped
             (lit "ab" ++ [LF] ++ lit "cd") {| line := 1; character := 2 |}))))).
    exists (lit "cd"). split; [reflexivity | cbn; lia].
  - apply (proj2 (proj2 (proj2 (proj2 (position_to_offset_total_unclamped
             (lit "ab" ++ [LF] ++ lit "cd") {| line := 0; character := 10 |}))))
             (lit "ab")).
    + reflexivity.
    + cbn. lia.
Defined.

(** C5: [position_to_offset] is a function of the text and the position,
    and on the positions within the bounds of the text it is monotonic: a
    greater line, or the same line and a greater character, never gives a
    smaller offset. *)
Theorem position_to_offset_monotonic (t : str) (p q : Position) :
  in_bounds t p -> in_bounds t q ->
  line p < line q \/ (line p = line q /\ character p < character q) ->
  position_to_offset t p <= position_to_offset t q.
Proof.
  intros Hp _ H. apply Nat.lt_le_incl, position_to_offset_strict; assumption.
Qed.

Lemma position_to_offset_monotonic_witness :
  let t := lit "line1" ++ [LF] ++ lit "line2" ++ [LF] ++ lit "line3" in
  position_to_offset t {| line := 0; character := 5 |} <=
  position_to_offset t {| line := 1; character := 3 |}.
Proof.
  apply position_to_offset_monotonic.
  - exists (lit "line1"). split; [reflexivity | cbn; lia].
  - exists (lit "line2"). split; [reflexivity | cbn; lia].
  - left. cbn. lia.
Defined.

(** ** Region classifier: the claims *)

(** C2, as stated, fails at the closing tag: in [<script>x</script>] the
    content span is [8, 9), offset 9 holds the [<] of the closing tag, and
    the classification there is inside. *)
Lemma closing_tag_first_character_inside :
  let text := lit "<script>x</script>" in
  find_regions text = [(8, 9)] /\
  drop 9 text = lit "</script>" /\
  is_in_script_region text (at_offset 9) = true.
Proof. repeat split; reflexivity. Qed.

(** C2 (amended): in a document whose scan finds exactly one region, with
    content span [s, e), a position is inside exactly when its offset lies
    in [s, e].  The [>] that ends the opening tag sits at [s - 1] and the
    [<] that starts the closing tag sits at [e] itself, so the first
    character of the closing tag counts as inside; the offsets just
    outside, [s - 1] and [e + 1], are classified as outside, and so is
    every other offset on the two tags. *)
Theorem single_region_classification (text : str) (s e : nat) :
  find_regions text = [(s, e)] ->
  (forall p, is_in_script_region text p = true <->
             s <= position_to_offset text p <= e) /\
  (1 <= s /\ text !! (s - 1) = Some ">"%char /\ text !! e = Some "<"%char) /\
  (forall p, position_to_offset text p + 1 = s ->
             is_in_script_region text p = false) /\
  (forall p, position_to_offset text p = e + 1 ->
             is_in_script_region text p = false) /\
  (forall p, position_to_offset text p < s \/ e < position_to_offset text p ->
             is_in_script_region text p = false).
Proof.
  intros H.
  assert (Hout : forall p,
    position_to_offset text p < s \/ e < position_to_offset text p ->
    is_in_script_region text p = false).
  { intros p Hp. apply is_in_script_region_false. intros s' e' Hin.
    rewrite H in Hin. apply list_elem_of_singleton in Hin. injection Hin as -> ->.
    exact Hp. }
  split; [|split; [|split; [|split]]].
  - intros p. rewrite is_in_script_region_true, H. split.
    + intros (s' & e' & Hin & Hp).
      apply list_elem_of_singleton in Hin. injection Hin as -> ->. exact Hp.
    + intros Hp. exists s, e. split; [apply list_elem_of_singleton; reflexivity | exact Hp].
  - destruct (region_tag_pair text s e) as (m & _ & T).
    { rewrite H. apply list_elem_of_singleton. reflexivity. }
    split; [pose proof (tp_open_len _ _ _ _ T); lia|].
    split; [exact (tp_gt _ _ _ _ T)|].
    pose proof (startswith_lookup _ _ 0 (tp_close _ _ _ _ T) ltac:(cbn; lia)) as L.
    rewrite lookup_drop, Nat.add_0_r in L. exact L.
  - intros p Hp. apply Hout. lia.
  - intros p Hp. apply Hout. lia.
  - exact Hout.
Qed.

Lemma single_region_classification_witness :
  let text := lit "<script>import os</script>" in
  (is_in_script_region text (at_offset 8) = true <->
   8 <= position_to_offset text (at_offset 8) <= 17) /\
  text !! 17 = Some "<"%char /\
  is_in_script_region text (at_offset 18) = false.
Proof.
  pose proof (single_region_classification (lit "<script>import os</script>") 8 17
                eq_refl) as (H1 & (_ & _ & H2) & _ & H3 & _).
  split; [apply H1|]. split; [exact H2|]. apply H3. reflexivity.
Defined.

(** C3, as stated, fails for a text that holds a complete tag pair before
    the unterminated tag: the positions of the complete pair are embedded.
    In [<script>a</script><script>b] the tag at offset 18 has no closing
    tag after it, and offset 8 is inside the first region. *)
Lemma unterminated_tag_after_region :
  let text := lit "<script>a</script><script>b" in
  startswith (lit "<script") (drop 18 text) = true /\
  find_sub (lit "</script>") (drop 18 text) = None /\
  find_regions text = [(8, 9)] /\
  is_in_script_region text (at_offset 8) = true /\
  is_python_code (analyze_context text (at_offset 8)) = true.
Proof. repeat split; reflexivity. Qed.

(** C3 (amended): when a text has an opening tag at offset [i] and no
    [</script>] from [i] on, the scan yields no region for that tag: every
    match, closing tag included, ends at or before [i], so every content
    span ends before [i]; and every position whose offset is at or past
    [i] is not embedded, for [is_in_script_region] and for
    [analyze_context].  When the unterminated tag opens the text, as in
    [<script>x = 1], or when the text has no [</script>] at all, that is
    every position. *)
Theorem unterminated_tag_not_embedded (text : str) (i : nat) :
  startswith (lit "<script") (drop i text) = true ->
  find_sub (lit "</script>") (drop i text) = None ->
  (forall m, m ∈ finditer script_pattern text -> m_end m <= i) /\
  (forall s e, (s, e) ∈ find_regions text -> e < i) /\
  (forall p, i <= position_to_offset text p ->
     is_in_script_region text p = false /\
     is_python_code (analyze_context text p) = false) /\
  (find_sub (lit "</script>") text = None ->
   find_regions text = [] /\
   forall p, is_in_script_region text p = false /\
             is_python_code (analyze_context text p) = false).
Proof.
  intros Ho Hc.
  assert (Hend : forall m s e, tag_pair text m s e -> e < i /\ m_end m <= i).
  { intros m s e T.
    assert (e < i) as Hlt.
    { destruct (Nat.lt_ge_cases e i) as [|Hge]; [assumption|exfalso].
      pose proof (tp_close _ _ _ _ T) as Hcl.
      replace e with (i + (e - i)) in Hcl by lia. rewrite <- drop_drop in Hcl.
      rewrite (find_sub_None _ _ _ Hc) in Hcl. discriminate. }
    split; [exact Hlt|].
    rewrite (tp_end _ _ _ _ T).
    exact (close_before_open text e i (tp_close _ _ _ _ T) Ho Hlt). }
  assert (Hreg : forall s e, (s, e) ∈ find_regions text -> e < i).
  { intros s e Hin. destruct (region_tag_pair text s e Hin) as (m & _ & T).
    exact (proj1 (Hend m s e T)). }
  split; [|split; [|split]].
  - intros m Hm. destruct (finditer_tag_pair text m Hm) as (s & e & T).
    exact (proj2 (Hend m s e T)).
  - exact Hreg.
  - intros p Hp.
    assert (is_in_script_region text p = false) as Hf.
    { apply is_in_script_region_false. intros s e Hin.
      right. pose proof (Hreg s e Hin). lia. }
    split; [exact Hf|]. rewrite is_python_code_analyze. exact Hf.
  - intros Hnone.
    assert (finditer script_pattern text = []) as E.
    { destruct (finditer script_pattern text) as [|m ms] eqn:E; [reflexivity|exfalso].
      destruct (finditer_tag_pair text m) as (s & e & T); [rewrite E; left|].
      pose proof (tp_close _ _ _ _ T) as Hcl.
      rewrite (find_sub_None _ _ _ Hnone) in Hcl. discriminate. }
    split; [unfold find_regions; rewrite E; reflexivity|].
    intros p.
    assert (is_in_script_region text p = false) as Hf.
    { unfold is_in_script_region. rewrite E. reflexivity. }
    split; [exact Hf|]. rewrite is_python_code_analyze. exact Hf.
Qed.

Lemma unterminated_tag_not_embedded_witness :
  let text := lit "<script>x = 1" in
  finditer script_pattern text = [] /\
  is_in_script_region text {| line := 0; character := 8 |} = false /\
  is_python_code (analyze_context text {| line := 0; character := 8 |}) = false.
Proof.
  pose proof (unterminated_tag_not_embedded (lit "<script>x = 1") 0 eq_refl eq_refl)
    as (_ & _ & H & _).
  split; [reflexivity|].
  apply (H {| line := 0; character := 8 |}). cbn. lia.
Defined.

(** ** The scan under edits of the text *)



(** Passing over [skip] characters is scanning the rest of the text. *)
Lemma finditer_from_drop (s : str) (pos skip : nat) :
  skip <= length s ->
  finditer_from script_pattern s pos skip =
  finditer_from script_pattern (drop skip s) (pos + skip) 0.
Proof.
  revert s pos. induction skip as [|k IH]; intros s pos H.
  - rewrite drop_0, Nat.add_0_r. reflexivity.
  - destruct s as [|c s]; [cbn in H; lia|].
    rewrite finditer_from_skip, IH by (cbn in H; lia).
    cbn [drop]. f_equal. lia.
Qed.

Lemma tag_pair_at_not_lt (c : ascii) (s : str) (pos : nat) :
  c <> "<"%char -> tag_pair_at (c :: s) pos = None.
Proof.
  intros H. unfold tag_pair_at. cbn [startswith list_ascii_of_string].
  destruct (Ascii.eqb "<" c) eqn:E; [|reflexivity].
  apply Ascii.eqb_eq in E. congruence.
Qed.

(** No match starts before the first [<]. *)
Lemma finditer_from_no_lt (pre t : str) (pos : nat) :
  "<"%char ∉ pre ->
  finditer_from script_pattern (pre ++ t) pos 0 =
  finditer_from script_pattern t (pos + length pre) 0.
Proof.
  revert pos. induction pre as [|c pre IH]; intros pos H; cbn [app length].
  - rewrite Nat.add_0_r. reflexivity.
  - rewrite finditer_from_cons, tag_pair_at_not_lt.
    + rewrite IH; [f_equal; lia|]. intros Hin. apply H. right. exact Hin.
    + intros ->. apply H. left.
Qed.

Lemma tag_pair_at_no_close (s : str) (pos : nat) :
  find_sub (lit "</script>") s = None -> tag_pair_at s pos = None.
Proof.
  intros H. unfold tag_pair_at.
  destruct (startswith (lit "<script") s); [|reflexivity].
  destruct (index_of ">" (drop 7 s)) as [j|]; [|reflexivity].
  rewrite (find_sub_drop_None _ _ (8 + j) H). reflexivity.
Qed.

(** Without a closing tag there is no match. *)
Lemma finditer_from_no_close (s : str) (pos skip : nat) :
  find_sub (lit "</script>") s = None ->
  finditer_from script_pattern s pos skip = [].
Proof.
  revert pos skip. induction s as [|c s IH]; intros pos skip H.
  - apply finditer_from_nil.
  - pose proof (find_sub_drop_None _ _ 1 H) as H'. cbn [drop] in H'.
    rewrite drop_0 in H'.
    destruct skip as [|k].
    + rewrite finditer_from_cons, (tag_pair_at_no_close _ _ H). apply IH, H'.
    + rewrite finditer_from_skip. apply IH, H'.
Qed.

(** An attempt that starts inside an opening tag looks for its closing tag
    after the [>] of that tag. *)
Lemma tag_pair_at_inside_tag (w rest : str) (pos : nat) :
  ">"%char ∉ w ->
  find_sub (lit "</script>") rest = None ->
  tag_pair_at (w ++ ">"%char :: rest) pos = None.
Proof.
  intros Hw Hc. unfold tag_pair_at.
  destruct (startswith (lit "<script") (w ++ ">"%char :: rest)); [|reflexivity].
  destruct (index_of ">" (drop 7 (w ++ ">"%char :: rest))) as [j|] eqn:Hj; [|reflexivity].
  apply index_of_lookup in Hj. rewrite lookup_drop in Hj.
  assert (length w <= 7 + j) as Hle.
  { destruct (Nat.le_gt_cases (length w) (7 + j)) as [|Hgt]; [assumption|exfalso].
    rewrite lookup_app_l in Hj by exact Hgt.
    apply Hw. eapply list_elem_of_lookup_2. exact Hj. }
  rewrite drop_app_ge by lia.
  replace (8 + j - length w) with (S (7 + j - length w)) by lia. cbn [drop].
  rewrite (find_sub_drop_None _ _ _ Hc). reflexivity.
Qed.

Lemma finditer_from_inside_tag (w rest : str) (pos : nat) :
  ">"%char ∉ w ->
  find_sub (lit "</script>") rest = None ->
  finditer_from script_pattern (w ++ ">"%char :: rest) pos 0 = [].
Proof.
  revert pos. induction w as [|c w IH]; intros pos Hw Hc.
  - pose proof (tag_pair_at_inside_tag [] rest pos Hw Hc) as E.
    cbn [app] in *. rewrite finditer_from_cons, E.
    apply finditer_from_no_close, Hc.
  - pose proof (tag_pair_at_inside_tag (c :: w) rest pos Hw Hc) as E.
    cbn [app] in *. rewrite finditer_from_cons, E.
    apply IH; [|exact Hc]. intros Hin. apply Hw. right. exact Hin.
Qed.

(** After a match the scan resumes where the match ends. *)
Lemma finditer_from_match (s : str) (pos : nat) (m : Match) :
  tag_pair_at s pos = Some m ->
  finditer_from script_pattern s pos 0 =
  m :: finditer_from script_pattern (drop (m_end m - pos) s) (m_end m) 0.
Proof.
  intros H. destruct s as [|c s]; [discriminate|].
  rewrite finditer_from_cons, H. f_equal.
  apply tag_pair_at_inv in H as (j & k & _ & _ & Hk & ->). cbn [m_end].
  apply find_sub_Some, startswith_length in Hk.
  rewrite !length_drop in Hk. change (length (lit "</script>")) with 9 in Hk.
  cbn [length] in Hk.
  set (n := pos + (8 + j) + k + 9 - pos - 1).
  replace (pos + (8 + j) + k + 9 - pos) with (S n) by lia.
  replace (pos + (8 + j) + k + 9) with (S pos + n) by lia.
  rewrite finditer_from_drop by lia. reflexivity.
Qed.

Lemma tag_text_split (attrs rest : str) :
  lit "<script" ++ attrs ++ ">"%char :: rest =
  (lit "<script" ++ attrs ++ [">"%char]) ++ rest.
Proof. rewrite <- !app_assoc. reflexivity. Qed.

Lemma tag_text_length (attrs : str) :
  length (lit "<script" ++ attrs ++ [">"%char]) = 8 + length attrs.
Proof. rewrite !length_app. cbn. lia. Qed.

Lemma tag_pair_at_tag (attrs rest : str) (pos k : nat) :
  ">"%char ∉ attrs ->
  find_sub (lit "</script>") rest = Some k ->
  tag_pair_at (lit "<script" ++ attrs ++ ">"%char :: rest) pos =
  Some {| m_start := pos; m_end := pos + (8 + length attrs) + k + 9;
          m_start1 := Some (pos + (8 + length attrs));
          m_end1 := Some (pos + (8 + length attrs) + k) |}.
Proof.
  intros Ha Hk. unfold tag_pair_at. rewrite startswith_app.
  rewrite (drop_app_length' (lit "<script")) by reflexivity.
  rewrite (index_of_app _ _ _ Ha).
  rewrite tag_text_split, drop_app_length' by (symmetry; apply tag_text_length).
  rewrite Hk. reflexivity.
Qed.

(** The scan of a text that starts with an opening tag. *)
Lemma finditer_from_tag (attrs rest : str) (pos : nat) :
  ">"%char ∉ attrs ->
  finditer_from script_pattern (lit "<script" ++ attrs ++ ">"%char :: rest) pos 0 =
  match find_sub (lit "</script>") rest with
  | Some k =>
      {| m_start := pos; m_end := pos + (8 + length attrs) + k + 9;
         m_start1 := Some (pos + (8 + length attrs));
         m_end1 := Some (pos + (8 + length attrs) + k) |}
      :: finditer_from script_pattern (drop (k + 9) rest)
           (pos + (8 + length attrs) + k + 9) 0
  | None => []
  end.
Proof.
  intros Ha.
  destruct (find_sub (lit "</script>") rest) as [k|] eqn:Hk.
  - rewrite (finditer_from_match _ _ _ (tag_pair_at_tag attrs rest pos k Ha Hk)).
    cbn [m_end]. do 2 f_equal.
    replace (pos + (8 + length attrs) + k + 9 - pos)
      with ((8 + length attrs) + (k + 9)) by lia.
    rewrite <- drop_drop. f_equal.
    rewrite tag_text_split. apply drop_app_length'. symmetry. apply tag_text_length.
  - rewrite app_assoc.
    apply finditer_from_inside_tag; [|exact Hk].
    intros Hin. apply elem_of_app in Hin as [Hin|Hin]; [|exact (Ha Hin)].
    cbn in Hin. repeat (apply elem_of_cons in Hin as [Hin|Hin]; [discriminate|]).
    inversion Hin.
Qed.








Lemma finditer_no_open (text : str) :
  find_sub (lit "<script") text = None -> finditer script_pattern text = [].
Proof.
  unfold finditer. generalize 0 at 1. induction text as [|c s IH]; intros pos H.
  - apply finditer_from_nil.
  - rewrite finditer_from_cons.
    pose proof (find_sub_None _ _ 0 H) as H0. rewrite drop_0 in H0.
    unfold tag_pair_at. rewrite H0. apply IH.
    pose proof (find_sub_drop_None _ _ 1 H) as H1. exact H1.
Qed.

Lemma find_sub_app_first (a : ascii) (n w t : str) :
  a ∉ w -> startswith (a :: n) t = true ->
  find_sub (a :: n) (w ++ t) = Some (length w).
Proof.
  intros H Ht. induction w as [|c w IH].
  - cbn [app length]. destruct t; [discriminate|].
    cbn [find_sub]. rewrite Ht. reflexivity.
  - cbn [app length find_sub startswith].
    destruct (Ascii.eqb a c) eqn:E.
    + apply Ascii.eqb_eq in E. subst. exfalso. apply H. left.
    + cbn [andb]. rewrite IH; [reflexivity|]. intros Hin. apply H. right. exact Hin.
Qed.

(** A document made of one tag pair, with text free of [<] before the pair
    and inside it and no closing tag after it, has exactly one region: the
    content of the pair. *)
Lemma single_pair_regions (pre attrs content post : str) :
  "<"%char ∉ pre -> ">"%char ∉ attrs -> "<"%char ∉ content ->
  find_sub (lit "</script>") post = None ->
  find_regions (pre ++ lit "<script" ++ attrs ++ ">"%char :: content
                ++ lit "</script>" ++ post) =
  [(length pre + (8 + length attrs), length pre + (8 + length attrs) + length content)].
Proof.
  intros Hp Ha Hc Hpost. unfold find_regions, finditer.
  rewrite finditer_from_no_lt by exact Hp.
  rewrite finditer_from_tag by exact Ha.
  pose proof (find_sub_app_first "<" (lit "/script>") content
                (lit "</script>" ++ post) Hc (startswith_app _ _)) as F.
  change ("<"%char :: lit "/script>") with (lit "</script>") in F. rewrite F.
  cbn [omap list_omap m_start1 m_end1].
  replace (drop (length content + 9) (content ++ lit "</script>" ++ post)) with post.
  - rewrite (finditer_from_no_close post _ 0 Hpost). cbn. do 2 f_equal; lia.
  - rewrite app_assoc. symmetry. apply drop_app_length'.
    rewrite length_app. reflexivity.
Qed.

(** An anchored match at an offset is a match of the scan, unless the scan
    passes over that offset inside an earlier match. *)
Lemma finditer_from_attempt (s : str) (pos skip i : nat) (m : Match) :
  skip <= i ->
  tag_pair_at (drop i s) (pos + i) = Some m ->
  m ∈ finditer_from script_pattern s pos skip \/
  exists m', m' ∈ finditer_from script_pattern s pos skip /\
             m_start m' < pos + i < m_end m'.
Proof.
  revert pos skip i. induction s as [|c s IH]; intros pos skip i Hs Hm.
  - rewrite drop_nil in Hm. discriminate.
  - destruct skip as [|k].
    + rewrite finditer_from_cons.
      destruct i as [|i].
      * rewrite drop_0, Nat.add_0_r in Hm. rewrite Hm. left. left.
      * cbn [drop] in Hm. replace (pos + S i) with (S pos + i) in * by lia.
        destruct (tag_pair_at (c :: s) pos) as [m0|] eqn:E0.
        -- destruct (Nat.le_gt_cases (m_end m0 - pos - 1) i) as [Hle|Hgt].
           ++ destruct (IH (S pos) _ i Hle Hm) as [H|(m' & H & Hin)].
              ** left. right. exact H.
              ** right. exists m'. split; [right; exact H | exact Hin].
           ++ right. exists m0. split; [left|].
              apply tag_pair_at_inv in E0 as (j & k & _ & _ & _ & ->).
              cbn [m_start m_end] in *. lia.
        -- destruct (IH (S pos) 0 i ltac:(lia) Hm) as [H|(m' & H & Hin)].
           ++ left. exact H.
           ++ right. exists m'. split; assumption.
    + destruct i as [|i]; [lia|].
      rewrite finditer_from_skip. cbn [drop] in Hm.
      replace (pos + S i) with (S pos + i) in * by lia.
      apply (IH (S pos) k i ltac:(lia) Hm).
Qed.

(** The first [>] and the first closing tag an anchored match stops at. *)
Lemma finditer_first_stops (text : str) (m : Match) (g c : nat) :
  m ∈ finditer script_pattern text ->
  m_start m + 7 <= g -> text !! g = Some ">"%char ->
  g < c -> startswith (lit "</script>") (drop c text) = true ->
  exists s e, tag_pair text m s e /\ s <= S g /\ e <= c.
Proof.
  intros Hm Hg Hgt Hc Hclose.
  apply finditer_from_sound in Hm as [i Hm]. cbn [Nat.add] in Hm.
  pose proof Hm as Hm'.
  apply tag_pair_at_inv in Hm as (j & k & Ho & Hj & Hk & ->).
  cbn [m_start] in Hg.
  assert (j <= g - (i + 7)) as Hjle.
  { destruct (index_of_first ">" (drop 7 (drop i text)) (g - (i + 7))) as (j' & Ej & Hj').
    - rewrite !lookup_drop. rewrite <- Hgt. f_equal. lia.
    - congruence. }
  assert (k <= c - (i + (8 + j))) as Hkle.
  { eapply find_sub_first; [exact Hk|].
    rewrite !drop_drop. replace (i + (8 + j + (c - (i + (8 + j))))) with c by lia.
    exact Hclose. }
  exists (i + (8 + j)), (i + (8 + j) + k). split; [|lia].
  pose proof (find_sub_Some _ _ _ Hk) as Hcl. rewrite !drop_drop in Hcl.
  apply index_of_lookup in Hj. rewrite !lookup_drop in Hj.
  split; cbn [m_start m_end m_start1 m_end1]; try reflexivity; try lia.
  - exact Ho.
  - rewrite <- Hj. f_equal. lia.
  - replace (i + (8 + j) + k) with (i + (8 + j + k)) by lia. exact Hcl.
  - apply startswith_length in Hcl. rewrite length_drop in Hcl.
    change (length (lit "</script>")) with 9 in Hcl. lia.
Qed.

(** In every text, the offset between [<script>] and a [</script>] that
    follows it at once is inside a region. *)
Lemma empty_pair_inside (pre post : str) (p : Position) :
  let text := pre ++ lit "<script></script>" ++ post in
  position_to_offset text p = length pre + 8 ->
  is_in_script_region text p = true.
Proof.
  intros text Hp.
  assert (Hdrop : drop (length pre) text = lit "<script></script>" ++ post).
  { apply drop_app_length. }
  assert (Hchar : forall d, d < 17 ->
            text !! (length pre + d) = lit "<script></script>" !! d).
  { intros d Hd. rewrite <- lookup_drop, Hdrop. apply lookup_app_l. cbn. lia. }
  assert (Hclose : startswith (lit "</script>") (drop (length pre + 8) text) = true).
  { rewrite <- drop_drop, Hdrop. reflexivity. }
  assert (Hopen : startswith (lit "<script") (drop (length pre) text) = true).
  { rewrite Hdrop. reflexivity. }
  assert (Hat : tag_pair_at (drop (length pre) text) (0 + length pre) =
                Some {| m_start := length pre; m_end := length pre + 17;
                        m_start1 := Some (length pre + 8);
                        m_end1 := Some (length pre + 8) |}).
  { rewrite Hdrop.
    pose proof (tag_pair_at_tag [] (lit "</script>" ++ post) (length pre) 0
                  (not_elem_of_nil _) eq_refl) as T.
    cbn [Nat.add]. etransitivity; [exact T|].
    cbn [length].
    replace (length pre + (8 + 0) + 0 + 9) with (length pre + 17) by lia.
    replace (length pre + (8 + 0) + 0) with (length pre + 8) by lia.
    replace (length pre + (8 + 0)) with (length pre + 8) by lia.
    reflexivity. }
  apply is_in_script_region_true.
  destruct (finditer_from_attempt text 0 0 (length pre) _ (Nat.le_0_l _) Hat)
    as [Hin | (m' & Hin & Hlt & Hgt)].
  - exists (length pre + 8), (length pre + 8). split; [|lia].
    unfold find_regions. apply list_elem_of_omap. eexists. split; [exact Hin|reflexivity].
  - cbn [Nat.add] in Hlt, Hgt.
    destruct (finditer_first_stops text m' (length pre + 7) (length pre + 8) Hin
                ltac:(lia) (Hchar 7 ltac:(lia)) ltac:(lia) Hclose)
      as (s & e & T & Hs & He).
    exists s, e. split.
    + unfold find_regions. apply list_elem_of_omap. exists m'. split; [exact Hin|].
      rewrite (tp_start1 _ _ _ _ T), (tp_end1 _ _ _ _ T). reflexivity.
    + rewrite Hp. split; [lia|].
      pose proof (tp_end _ _ _ _ T) as Hend.
      destruct (Nat.le_gt_cases (length pre + 8) e) as [|Hsmall]; [assumption|exfalso].
      destruct (Nat.lt_ge_cases e (length pre)) as [Hbefore|Hafter].
      * pose proof (close_before_open text e (length pre) (tp_close _ _ _ _ T)
                      Hopen Hbefore). lia.
      * pose proof (startswith_lookup _ _ 0 (tp_close _ _ _ _ T) ltac:(cbn; lia)) as L0.
        pose proof (startswith_lookup _ _ 1 (tp_close _ _ _ _ T) ltac:(cbn; lia)) as L1.
        rewrite lookup_drop in L0, L1.
        replace (e + 0) with (length pre + (e - length pre)) in L0 by lia.
        replace (e + 1) with (length pre + (e - length pre + 1)) in L1 by lia.
        rewrite Hchar in L0 by lia. rewrite Hchar in L1 by lia.
        destruct (e - length pre) as [|[|[|[|[|[|[|[|d]]]]]]]] eqn:D;
          cbn in L0, L1; try discriminate; lia.
Qed.

(** C10: a tag pair with empty content gives a region whose span has
    [s = e], and the one offset [s] is inside it; when it is the only
    region of the document, [s] is the only inside offset.  On the text
    itself: wherever [<script></script>] stands in a document, the offset
    between its two tags is inside a region. *)
Theorem empty_region_boundary_inside (text : str) (s : nat) :
  ((s, s) ∈ find_regions text ->
   forall p, position_to_offset text p = s -> is_in_script_region text p = true) /\
  (find_regions text = [(s, s)] ->
   forall p, is_in_script_region text p = true <-> position_to_offset text p = s) /\
  (forall pre post p,
     text = pre ++ lit "<script></script>" ++ post ->
     position_to_offset text p = length pre + 8 ->
     is_in_script_region text p = true).
Proof.
  split; [|split].
  - intros Hin p Hp. apply is_in_script_region_true. exists s, s. split; [exact Hin | lia].
  - intros H p. rewrite is_in_script_region_true, H. split.
    + intros (s' & e' & Hin' & Hp).
      apply list_elem_of_singleton in Hin'. injection Hin' as -> ->. lia.
    + intros Hp. exists s, s. split; [apply list_elem_of_singleton; reflexivity | lia].
  - intros pre post p -> Hp. apply empty_pair_inside, Hp.
Qed.

Lemma empty_region_boundary_inside_witness :
  let text := lit "<script></script>" in
  (8, 8) ∈ find_regions text /\
  is_in_script_region text (at_offset 8) = true /\
  (is_in_script_region text (at_offset 9) = true <->
   position_to_offset text (at_offset 9) = 8) /\
  is_in_script_region (lit "<p>a</p><script></script><p>b</p>")
    {| line := 0; character := 16 |} = true.
Proof.
  assert (Hin : (8, 8) ∈ find_regions (lit "<script></script>")).
  { apply list_elem_of_singleton. reflexivity. }
  pose proof (empty_region_boundary_inside (lit "<script></script>") 8) as (H1 & H2 & _).
  pose proof (empty_region_boundary_inside (lit "<p>a</p><script></script><p>b</p>") 16)
    as (_ & _ & H3).
  split; [exact Hin|]. split; [|split].
  - apply (H1 Hin). reflexivity.
  - apply (H2 eq_refl).
  - apply (H3 (lit "<p>a</p>") (lit "<p>b</p>")); reflexivity.
Defined.





(** ** Completion bridge: the claims *)

(** C9: [map_jedi_type_to_lsp] is total: each of the eight kinds of the
    table maps to its protocol kind, and every other string maps to
    [CompletionItemKind.Text]. *)
Theorem map_jedi_type_to_lsp_total (jedi_type : str) :
  map_jedi_type_to_lsp (lit "module") = KindModule /\
  map_jedi_type_to_lsp (lit "class") = KindClass /\
  map_jedi_type_to_lsp (lit "function") = KindFunction /\
  map_jedi_type_to_lsp (lit "param") = KindVariable /\
  map_jedi_type_to_lsp (lit "path") = KindFile /\
  map_jedi_type_to_lsp (lit "keyword") = KindKeyword /\
  map_jedi_type_to_lsp (lit "property") = KindProperty /\
  map_jedi_type_to_lsp (lit "statement") = KindVariable /\
  (jedi_type ∉ [lit "module"; lit "class"; lit "function"; lit "param";
                lit "path"; lit "keyword"; lit "property"; lit "statement"] ->
   map_jedi_type_to_lsp jedi_type = KindText).
Proof.
  repeat (split; [vm_compute; reflexivity|]).
  intros H. unfold map_jedi_type_to_lsp, jedi_type_mapping.
  rewrite (not_elem_of_list_to_map_1 _ jedi_type); [reflexivity|exact H].
Qed.

Lemma map_jedi_type_to_lsp_total_witness :
  map_jedi_type_to_lsp (lit "instance") = KindText.
Proof.
  apply (map_jedi_type_to_lsp_total (lit "instance")).
  apply (bool_decide_unpack _). vm_compute. exact I.
Defined.

Section CompletionProofs.
Context `{C : Collaborators}.

Lemma for_each_lift (completions : list JediCompletion) (t : trace) :
  for_each (fun comp => lift (completion_item comp)) completions t =
  (t, completion_items completions).
Proof.
  induction completions as [|comp rest IH]; [reflexivity|].
  cbn [for_each completion_items]. unfold bind, lift at 1.
  destruct (completion_item comp) as [item|e]; [|reflexivity].
  rewrite IH. destruct (completion_items rest); reflexivity.
Qed.


Lemma get_python_completions_not_python (source : str) (position : Position)
    (context : CompletionContext) (t : trace) :
  is_python_code context = false ->
  get_python_completions source position context t = (t, Ok []).
Proof. intros H. unfold get_python_completions. rewrite H. reflexivity. Qed.

(** The [with] block succeeds when both of its steps do. *)
Lemma temp_file_Ok (content tmp_path : str) :
  temp_file content = Ok tmp_path ->
  named_temporary_file (lit ".cgx") = Ok tmp_path /\
  tmp_file_write tmp_path content = Ok tt.
Proof.
  unfold temp_file. destruct (named_temporary_file (lit ".cgx")) as [p|e]; [|discriminate].
  destruct (tmp_file_write p content) as [[]|e] eqn:W; [|discriminate].
  intros [= <-]. split; [reflexivity|exact W].
Qed.

Lemma temp_file_Raise (content : str) (e : exn) :
  temp_file content = Raise e ->
  named_temporary_file (lit ".cgx") = Raise e \/
  exists tmp_path, named_temporary_file (lit ".cgx") = Ok tmp_path /\
                   tmp_file_write tmp_path content = Raise e.
Proof.
  unfold temp_file. destruct (named_temporary_file (lit ".cgx")) as [p|e0].
  - destruct (tmp_file_write p content) as [[]|e1] eqn:W; [discriminate|].
    intros [= <-]. right. exists p. split; [reflexivity|exact W].
  - intros [= <-]. left. reflexivity.
Qed.

(** Once the scratch file is written, the call is the [try] with its
    [finally]. *)
Lemma get_python_completions_written (source : str) (position : Position)
    (context : CompletionContext) (tmp_path : str) (t : trace) :
  is_python_code context = true ->
  temp_file (full_source context) = Ok tmp_path ->
  get_python_completions source position context t =
  try_finally
    (try_except (complete_with_jedi tmp_path context) (fun _ => ret []))
    (invoke Unlink tmp_path (unlink tmp_path))
    ((t ++ [Invoke NamedTemporaryFile (lit ".cgx")])
       ++ [Invoke TmpFileWrite (full_source context)]).
Proof.
  intros Hpy Htmp. apply temp_file_Ok in Htmp as [Hcreate Hwrite].
  unfold get_python_completions. rewrite Hpy. cbn [negb].
  unfold bind at 1, invoke at 1. rewrite Hcreate.
  unfold bind at 1, invoke at 1. rewrite Hwrite. reflexivity.
Qed.

End CompletionProofs.





(** ** Lines with their boundaries *)

(** [splitlines(keepends=True)] loses nothing: the lines put together are
    the text. *)
Lemma splitlines_from_concat (n : nat) (s cur : str) :
  length s <= n -> concat (splitlines_from cur s) = cur ++ s.
Proof.
  revert s cur. induction n as [|n IH]; intros s cur Hn.
  - destruct s; [|cbn in Hn; lia]. cbn. destruct cur; cbn; [reflexivity|].
    rewrite !app_nil_r. reflexivity.
  - destruct s as [|c s]; cbn [splitlines_from].
    + destruct cur; cbn; [reflexivity|]. rewrite !app_nil_r. reflexivity.
    + cbn [length] in Hn. destruct (Ascii.eqb c CR).
      * destruct s as [|d s].
        -- cbn. rewrite app_nil_r. reflexivity.
        -- destruct (Ascii.eqb d LF); cbn [concat].
           ++ rewrite IH by (cbn [length] in Hn; lia).
              rewrite <- app_assoc. reflexivity.
           ++ rewrite IH by lia. rewrite <- app_assoc. reflexivity.
      * destruct (is_linebreak c); cbn [concat].
        -- rewrite IH by lia. rewrite <- app_assoc. reflexivity.
        -- rewrite IH by lia. rewrite <- app_assoc. reflexivity.
Qed.

Lemma splitlines_from_nonempty (n : nat) (s cur : str) :
  length s <= n -> Forall (fun l => l <> []) (splitlines_from cur s).
Proof.
  assert (snoc : forall (l : str) (x : list ascii), x <> [] -> l ++ x <> []).
  { intros l x Hx E. apply app_eq_nil in E as [_ E]. exact (Hx E). }
  revert s cur. induction n as [|n IH]; intros s cur Hn.
  - destruct s; [|cbn in Hn; lia]. cbn. destruct cur; repeat constructor. discriminate.
  - destruct s as [|c s]; cbn [splitlines_from].
    + destruct cur; repeat constructor. discriminate.
    + cbn [length] in Hn. destruct (Ascii.eqb c CR).
      * destruct s as [|d s].
        -- repeat constructor. apply snoc. discriminate.
        -- destruct (Ascii.eqb d LF); constructor;
             try (apply snoc; discriminate);
             apply IH; cbn [length] in *; lia.
      * destruct (is_linebreak c).
        -- constructor; [apply snoc; discriminate | apply IH; lia].
        -- apply IH; lia.
Qed.

Lemma length_concat_nonempty (ls : list str) :
  Forall (fun l => l <> []) ls -> length ls <= length (concat ls).
Proof.
  induction 1 as [|l ls Hl _ IH]; cbn; [lia|].
  rewrite length_app. destruct l; [congruence|]. cbn. lia.
Qed.

Lemma length_last_concat (ls : list str) (l : str) :
  last ls = Some l -> length l <= length (concat ls).
Proof.
  induction ls as [|x ls IH]; [discriminate|].
  cbn [concat]. rewrite length_app. destruct ls as [|y ls].
  - intros [= ->]. cbn. lia.
  - intros H. specialize (IH H). lia.
Qed.

(** For a non-empty document of a size the protocol can express, the range
    of the whole document is built: it starts at (0, 0). *)
Lemma whole_document_edit_nonempty (content formatted : str) :
  content <> [] ->
  (Z.of_nat (length content) <= UINTEGER_MAX_VALUE)%Z ->
  exists edit,
    whole_document_edit content formatted = Ok edit /\
    te_new_text edit = formatted /\
    range_start (te_range edit) = {| line := 0; character := 0 |}.
Proof.
  intros Hne Hsize. unfold whole_document_edit.
  pose proof (splitlines_from_concat (length content) content [] (Nat.le_refl _)) as Hcat.
  pose proof (splitlines_from_nonempty (length content) content [] (Nat.le_refl _)) as Hall.
  fold (splitlines_keepends content) in Hcat, Hall. cbn [app] in Hcat.
  pose proof (length_concat_nonempty _ Hall) as Hlines. rewrite Hcat in Hlines.
  assert (splitlines_keepends content <> []) as Hlne.
  { intros E. rewrite E in Hcat. cbn in Hcat. congruence. }
  destruct (last (splitlines_keepends content)) as [l|] eqn:Hlast.
  - pose proof (length_last_concat _ _ Hlast) as Hl. rewrite Hcat in Hl.
    assert (0 < length (splitlines_keepends content)) as Hpos.
    { destruct (splitlines_keepends content); [congruence | cbn; lia]. }
    unfold mk_Position, uinteger, UINTEGER_MAX_VALUE in *. cbn [Z.leb andb].
    replace ((0 <=? Z.of_nat (length (splitlines_keepends content)) - 1)%Z) with true
      by (symmetry; apply Z.leb_le; lia).
    replace ((Z.of_nat (length (splitlines_keepends content)) - 1 <=? 2 ^ 31 - 1)%Z)
      with true by (symmetry; apply Z.leb_le; lia).
    replace ((0 <=? Z.of_nat (length l))%Z) with true by (symmetry; apply Z.leb_le; lia).
    replace ((Z.of_nat (length l) <=? 2 ^ 31 - 1)%Z) with true
      by (symmetry; apply Z.leb_le; lia).
    cbn. eexists. repeat split.
  - apply last_None in Hlast. congruence.
Qed.

(** ** Feature dispatcher: the claims *)




Section FormattingProofs.
Context `{C : Collaborators}.

(** When the formatter returns the content unchanged, no edit is made, for
    every handle and every content. *)
Lemma formatting_identical_no_edit (uri content : str) (t : trace) :
  get_text_document uri = Ok content ->
  format_cgx_content content uri = Ok content ->
  exists t', formatting uri t = (t', Ok []).
Proof.
  intros Hdoc Hfmt. unfold formatting, try_except, bind, log, emit, ret, invoke.
  destruct (negb (is_cgx uri)); [eauto|].
  rewrite Hdoc, Hfmt. rewrite bool_decide_eq_true_2 by reflexivity. eauto.
Qed.

(** A changed output of a non-empty document comes back as one edit that
    replaces the whole document with the formatted text. *)
Lemma formatting_changed_edit (uri content formatted : str) (t : trace) :
  is_cgx uri = true ->
  get_text_document uri = Ok content ->
  format_cgx_content content uri = Ok formatted ->
  formatted <> content ->
  content <> [] ->
  (Z.of_nat (length content) <= UINTEGER_MAX_VALUE)%Z ->
  exists t' edit,
    formatting uri t = (t', Ok [edit]) /\
    te_new_text edit = formatted /\
    range_start (te_range edit) = {| line := 0; character := 0 |}.
Proof.
  intros Hcgx Hdoc Hfmt Hne Hcontent Hsize.
  destruct (whole_document_edit_nonempty content formatted Hcontent Hsize)
    as (edit & Hedit & Htext & Hstart).
  unfold formatting, try_except, bind, log, emit, ret, invoke, lift.
  rewrite Hcgx. cbn [negb]. rewrite Hdoc, Hfmt.
  rewrite bool_decide_eq_false_2 by exact Hne. rewrite Hedit.
  eexists _, edit. split; [reflexivity|]. split; assumption.
Qed.

(** For an empty document the range cannot be built: [last_line] is
    [len([]) - 1 = -1], which [Position] rejects. *)
Lemma whole_document_edit_empty (formatted : str) :
  exists e, whole_document_edit [] formatted = Raise e.
Proof. eexists. reflexivity. Qed.

End FormattingProofs.

(** C8 (code defect): on an empty [.cgx] document for which the formatter
    returns a non-empty text, [formatting] computes the end line -1, the
    construction of the range raises, the [except] clause logs the error,
    and the request returns no edit although the output differs from the
    content. *)
Theorem formatting_empty_document_drops_edit :
  let C := example_collaborators [] (Ok (lit "<template></template>")) (Ok tt) in
  let uri := lit "file:///new.cgx" in
  is_cgx uri = true /\
  get_text_document uri = Ok [] /\
  format_cgx_content [] uri = Ok (lit "<template></template>") /\
  splitlines_keepends [] = [] /\
  run (formatting uri) =
  ([Log INFO (lit "Formatting document: file:///new.cgx");
    Invoke GetTextDocument uri;
    Invoke FormatCgxContent [];
    Log ERROR (lit "Error formatting document file:///new.cgx: "
               ++ lit "Position.line should be in range [0:2147483647], but was -1.")],
   Ok []).
Proof. repeat split; reflexivity. Qed.

(** * Further properties of the code *)

(** ** Offsets and characters *)

Lemma split_lines_cons_lf (s : str) : split_lines (LF :: s) = [] :: split_lines s.
Proof. reflexivity. Qed.

Lemma split_lines_cons_other (c : ascii) (s : str) :
  c <> LF ->
  exists l ls, split_lines s = l :: ls /\ split_lines (c :: s) = (c :: l) :: ls.
Proof.
  intros Hc. cbn [split_lines].
  destruct (Ascii.eqb c LF) eqn:E; [apply Ascii.eqb_eq in E; congruence|].
  destruct (split_lines s) as [|l ls] eqn:Es.
  - exfalso. exact (split_lines_nonempty s Es).
  - exists l, ls. split; reflexivity.
Qed.

(** How the offset of a position moves when a character is put in front of
    the text. *)
Lemma position_to_offset_cons_lf (s : str) (n k : nat) :
  position_to_offset (LF :: s) {| line := S n; character := k |} =
  S (position_to_offset s {| line := n; character := k |}).
Proof. unfold position_to_offset. rewrite split_lines_cons_lf. cbn. lia. Qed.

Lemma position_to_offset_cons_other (c : ascii) (s : str) (n k : nat) :
  c <> LF ->
  position_to_offset (c :: s) {| line := S n; character := k |} =
  S (position_to_offset s {| line := S n; character := k |}).
Proof.
  intros Hc. destruct (split_lines_cons_other c s Hc) as (l & ls & E1 & E2).
  unfold position_to_offset. rewrite E1, E2. cbn. lia.
Qed.

Lemma lookup_succ (c : ascii) (s : str) (i : nat) : (c :: s) !! S i = s !! i.
Proof. reflexivity. Qed.

Lemma position_to_offset_line0 (s : str) (k : nat) :
  position_to_offset s {| line := 0; character := k |} = k.
Proof. reflexivity. Qed.

Lemma ascii_eq_dec_lf (c : ascii) : {c = LF} + {c <> LF}.
Proof. apply ascii_dec. Qed.

(** The character of the text at the offset of a position is the character
    of the position's line at the position's column. *)
Lemma position_to_offset_lookup_char (s : str) (n k : nat) (l : str) :
  split_lines s !! n = Some l -> k < length l ->
  s !! position_to_offset s {| line := n; character := k |} = l !! k.
Proof.
  revert n k l. induction s as [|c s IH]; intros n k l Hl Hk.
  - destruct n; cbn in Hl; [|discriminate]. injection Hl as <-. cbn in Hk. lia.
  - destruct (ascii_eq_dec_lf c) as [->|Hc].
    + rewrite split_lines_cons_lf in Hl. destruct n as [|n]; cbn in Hl.
      * injection Hl as <-. cbn in Hk. lia.
      * rewrite position_to_offset_cons_lf. cbn [lookup list_lookup]. apply IH; assumption.
    + destruct (split_lines_cons_other c s Hc) as (l0 & ls & E1 & E2).
      rewrite E2 in Hl. destruct n as [|n]; cbn in Hl.
      * injection Hl as <-. rewrite position_to_offset_line0.
        destruct k as [|k]; [reflexivity|]. cbn [lookup list_lookup].
        apply (IH 0 k l0).
        -- rewrite E1. reflexivity.
        -- cbn in Hk. lia.
      * rewrite position_to_offset_cons_other by exact Hc.
        cbn [lookup list_lookup]. apply IH; [|exact Hk]. rewrite E1. exact Hl.
Qed.

(** At the end of a line the offset is that of the line feed that ends
    the line, or the end of the text on the last line. *)
Lemma position_to_offset_lookup_end (s : str) (n : nat) (l : str) :
  split_lines s !! n = Some l ->
  s !! position_to_offset s {| line := n; character := length l |} =
  if decide (S n < length (split_lines s)) then Some LF else None.
Proof.
  revert n l. induction s as [|c s IH]; intros n l Hl.
  - destruct n; cbn in Hl; [|discriminate]. injection Hl as <-. reflexivity.
  - destruct (ascii_eq_dec_lf c) as [->|Hc].
    + rewrite split_lines_cons_lf in *. destruct n as [|n]; cbn in Hl.
      * injection Hl as <-. cbn [length]. rewrite position_to_offset_line0.
        pose proof (split_lines_nonempty s). destruct (split_lines s); [congruence|].
        cbn. reflexivity.
      * rewrite position_to_offset_cons_lf, lookup_succ. cbn [length].
        rewrite (IH n l Hl).
        destruct (decide (S n < length (split_lines s))),
                 (decide (S (S n) < S (length (split_lines s)))); try reflexivity; lia.
    + destruct (split_lines_cons_other c s Hc) as (l0 & ls & E1 & E2).
      rewrite E2 in *. destruct n as [|n]; cbn in Hl.
      * injection Hl as <-. rewrite position_to_offset_line0. cbn [length].
        rewrite lookup_succ.
        pose proof (IH 0 l0 ltac:(rewrite E1; reflexivity)) as H0.
        rewrite position_to_offset_line0 in H0. rewrite H0, E1. reflexivity.
      * rewrite position_to_offset_cons_other by exact Hc. rewrite lookup_succ.
        rewrite (IH (S n) l) by (rewrite E1; exact Hl).
        rewrite E1. reflexivity.
Qed.

(** X1: the offset of a position within bounds addresses the character the
    position names: the character of its line at its column; at the end of
    a line, the line feed that ends the line; at the end of the last line,
    the end of the text. *)
Theorem position_to_offset_addresses_character (t : str) (p : Position) (l : str) :
  split_lines t !! line p = Some l ->
  character p <= length l ->
  t !! position_to_offset t p =
  if decide (character p < length l) then l !! character p
  else if decide (S (line p) < length (split_lines t)) then Some LF
       else None.
Proof.
  destruct p as [n k]. cbn [line character]. intros Hl Hk.
  destruct (decide (k < length l)) as [Hlt|Hge].
  - apply position_to_offset_lookup_char; assumption.
  - assert (k = length l) as -> by lia.
    apply position_to_offset_lookup_end. exact Hl.
Qed.

Lemma position_to_offset_addresses_character_witness :
  let t := lit "ab" ++ [LF] ++ lit "cd" in
  t !! position_to_offset t {| line := 1; character := 1 |} = Some "d"%char /\
  t !! position_to_offset t {| line := 0; character := 2 |} = Some LF /\
  t !! position_to_offset t {| line := 1; character := 2 |} = None.
Proof.
  cbv zeta. split; [|split].
  - apply (position_to_offset_addresses_character
             (lit "ab" ++ [LF] ++ lit "cd") {| line := 1; character := 1 |} (lit "cd"));
      [reflexivity | cbn; lia].
  - apply (position_to_offset_addresses_character
             (lit "ab" ++ [LF] ++ lit "cd") {| line := 0; character := 2 |} (lit "ab"));
      [reflexivity | cbn; lia].
  - apply (position_to_offset_addresses_character
             (lit "ab" ++ [LF] ++ lit "cd") {| line := 1; character := 2 |} (lit "cd"));
      [reflexivity | cbn; lia].
Defined.

Lemma position_to_offset_onto (t : str) (o : nat) :
  o <= length t -> exists p, in_bounds t p /\ position_to_offset t p = o.
Proof.
  revert o. induction t as [|c s IH]; intros o Ho.
  - cbn in Ho. assert (o = 0) as -> by lia.
    exists {| line := 0; character := 0 |}. split; [|reflexivity].
    exists []. split; [reflexivity | cbn; lia].
  - destruct o as [|o].
    + exists {| line := 0; character := 0 |}. split; [|reflexivity].
      destruct (split_lines (c :: s)) as [|l ls] eqn:E.
      * exfalso. exact (split_lines_nonempty _ E).
      * exists l. unfold line. rewrite E. split; [reflexivity | cbn; lia].
    + cbn [length] in Ho. destruct (IH o ltac:(lia)) as ([n k] & (l & Hl & Hk) & Hp).
      cbn [line character] in Hl, Hk.
      destruct (ascii_eq_dec_lf c) as [->|Hc].
      * exists {| line := S n; character := k |}. split.
        -- exists l. split; [exact Hl | exact Hk].
        -- rewrite position_to_offset_cons_lf, Hp. reflexivity.
      * destruct (split_lines_cons_other c s Hc) as (l0 & ls & E1 & E2).
        destruct n as [|n].
        -- exists {| line := 0; character := S k |}. split.
           ++ exists (c :: l0). cbn [line character]. rewrite E2. split; [reflexivity|].
              rewrite E1 in Hl. injection Hl as <-. cbn. lia.
           ++ rewrite position_to_offset_line0 in *. lia.
        -- exists {| line := S n; character := k |}. split.
           ++ exists l. cbn [line character]. rewrite E2. rewrite E1 in Hl.
              split; [exact Hl | exact Hk].
           ++ rewrite position_to_offset_cons_other by exact Hc. rewrite Hp. reflexivity.
Qed.

(** X2: on the positions within the bounds of a text, [position_to_offset]
    is one-to-one, and it reaches every offset from 0 to the length of the
    text: positions within bounds and offsets of the text correspond. *)
Theorem position_to_offset_bijective (t : str) :
  (forall p q, in_bounds t p -> in_bounds t q ->
               position_to_offset t p = position_to_offset t q -> p = q) /\
  (forall o, o <= length t ->
             exists p, in_bounds t p /\ position_to_offset t p = o).
Proof.
  split; [|apply position_to_offset_onto].
  intros [n k] [n' k'] Hp Hq E.
  destruct (Nat.lt_trichotomy n n') as [Hlt|[->|Hgt]].
  - pose proof (position_to_offset_strict t _ {| line := n'; character := k' |} Hp
                  (or_introl Hlt)). lia.
  - destruct (Nat.lt_trichotomy k k') as [Hlt|[->|Hgt]].
    + pose proof (position_to_offset_strict t {| line := n'; character := k |}
                    {| line := n'; character := k' |} Hp
                    (or_intror (conj eq_refl Hlt))). lia.
    + reflexivity.
    + pose proof (position_to_offset_strict t {| line := n'; character := k' |}
                    {| line := n'; character := k |} Hq
                    (or_intror (conj eq_refl Hgt))). lia.
  - pose proof (position_to_offset_strict t _ {| line := n; character := k |} Hq
                  (or_introl Hgt)). lia.
Qed.

Lemma position_to_offset_bijective_witness :
  let t := lit "ab" ++ [LF] ++ lit "cd" in
  exists p, in_bounds t p /\ position_to_offset t p = 4.
Proof.
  apply (proj2 (position_to_offset_bijective (lit "ab" ++ [LF] ++ lit "cd")) 4).
  cbn. lia.
Defined.

(** ** The order of the matches *)


Lemma finditer_from_lower (s : str) (pos skip : nat) (m : Match) :
  m ∈ finditer_from script_pattern s pos skip -> pos + skip <= m_start m.
Proof.
  revert pos skip. induction s as [|c s IH]; intros pos skip H.
  - rewrite finditer_from_nil in H. inversion H.
  - destruct skip as [|k].
    + rewrite finditer_from_cons in H.
      destruct (tag_pair_at (c :: s) pos) as [m0|] eqn:E.
      * apply elem_of_cons in H as [-> | H].
        -- apply tag_pair_at_inv in E as (j & k & _ & _ & _ & ->). cbn. lia.
        -- specialize (IH _ _ H). lia.
      * specialize (IH _ _ H). lia.
    + rewrite finditer_from_skip in H. specialize (IH _ _ H). lia.
Qed.

Lemma finditer_from_sorted (s : str) (pos skip : nat) :
  StronglySorted match_before (finditer_from script_pattern s pos skip).
Proof.
  revert pos skip. induction s as [|c s IH]; intros pos skip.
  - rewrite finditer_from_nil. constructor.
  - destruct skip as [|k].
    + rewrite finditer_from_cons.
      destruct (tag_pair_at (c :: s) pos) as [m0|] eqn:E; [|apply IH].
      constructor; [apply IH|].
      apply Forall_forall. intros m Hm. apply finditer_from_lower in Hm.
      apply tag_pair_at_inv in E as (j & k & _ & _ & _ & ->).
      unfold match_before. cbn [m_end] in *. lia.
    + rewrite finditer_from_skip. apply IH.
Qed.

Lemma regions_sorted (text : str) (ms : list Match) :
  (forall m, m ∈ ms -> exists s e, tag_pair text m s e) ->
  StronglySorted match_before ms ->
  StronglySorted region_before
    (omap (fun m => match m_start1 m, m_end1 m with
                    | Some s, Some e => Some (s, e)
                    | _, _ => None
                    end) ms).
Proof.
  intros Hall Hs. induction Hs as [|m ms Hs IH Hm]; [constructor|].
  destruct (Hall m ltac:(left)) as (s & e & T).
  cbn [omap list_omap]. rewrite (tp_start1 _ _ _ _ T), (tp_end1 _ _ _ _ T).
  constructor.
  - apply IH. intros m' Hin. apply Hall. right. exact Hin.
  - apply Forall_forall. intros [s' e'] Hin.
    apply list_elem_of_omap in Hin as (m' & Hin & Hse).
    destruct (Hall m' ltac:(right; exact Hin)) as (s2 & e2 & T').
    rewrite (tp_start1 _ _ _ _ T'), (tp_end1 _ _ _ _ T') in Hse.
    injection Hse as <- <-.
    rewrite Forall_forall in Hm. specialize (Hm m' Hin).
    unfold match_before in Hm. unfold region_before. cbn [fst snd].
    pose proof (tp_end _ _ _ _ T). pose proof (tp_open_len _ _ _ _ T'). lia.
Qed.

Lemma sorted_elements {A} (R : A -> A -> Prop) (l : list A) (x y : A) :
  StronglySorted R l -> x ∈ l -> y ∈ l -> x = y \/ R x y \/ R y x.
Proof.
  induction 1 as [|a l Hs IH Ha]; intros Hx Hy; [inversion Hx|].
  rewrite Forall_forall in Ha.
  apply elem_of_cons in Hx as [->|Hx]; apply elem_of_cons in Hy as [->|Hy]; auto.
Qed.

(** X3: the regions of a text come in the order of the text and never
    touch: each region is a span [s <= e], and between the end of one
    region and the start of the next lie at least the closing tag of the
    first and the opening tag of the second (17 characters); so an offset
    inside one region is outside every other. *)
Theorem regions_ordered_and_disjoint (text : str) :
  StronglySorted region_before (find_regions text) /\
  Forall (fun r => fst r <= snd r) (find_regions text) /\
  (forall o r1 r2,
     r1 ∈ find_regions text -> r2 ∈ find_regions text -> r1 <> r2 ->
     span_contains o r1 = true -> span_contains o r2 = false).
Proof.
  assert (Hsorted : StronglySorted region_before (find_regions text)).
  { unfold find_regions. apply (regions_sorted text).
    - intros m Hm. apply finditer_tag_pair. exact Hm.
    - apply finditer_from_sorted. }
  assert (Hspan : Forall (fun r => fst r <= snd r) (find_regions text)).
  { apply Forall_forall. intros [s e] Hin.
    destruct (region_tag_pair text s e Hin) as (m & _ & T).
    exact (tp_order _ _ _ _ T). }
  split; [exact Hsorted|]. split; [exact Hspan|].
  intros o [s1 e1] [s2 e2] H1 H2 Hne C1.
  destruct (span_contains o (s2, e2)) eqn:C2; [exfalso|reflexivity].
  unfold span_contains in C1, C2. cbn [fst snd] in C1, C2.
  apply andb_prop in C1 as [A1 B1]. apply andb_prop in C2 as [A2 B2].
  apply Nat.leb_le in A1, B1, A2, B2.
  destruct (sorted_elements _ _ _ _ Hsorted H1 H2) as [E|[R|R]];
    [exact (Hne E) | unfold region_before in R; cbn [fst snd] in R; lia
                   | unfold region_before in R; cbn [fst snd] in R; lia].
Qed.

(** ** Where a region starts and ends *)

(** X4: a region is the shortest content its opening tag can have: the
    opening tag [<script ...>] ends at the first [>] after the tag name,
    and the content ends at the first [</script>] after that, so the
    content itself holds no closing tag, and the region lies inside the
    text. *)
Theorem region_is_minimal (text : str) (s e : nat) :
  (s, e) ∈ find_regions text ->
  exists i,
    startswith (lit "<script") (drop i text) = true /\
    i + 8 <= s /\
    text !! (s - 1) = Some ">"%char /\
    (forall g, i + 7 <= g < s - 1 -> text !! g <> Some ">"%char) /\
    s <= e /\
    startswith (lit "</script>") (drop e text) = true /\
    (forall k, s <= k < e -> startswith (lit "</script>") (drop k text) = false) /\
    e + 9 <= length text.
Proof.
  unfold find_regions. intros H.
  apply list_elem_of_omap in H as (m & Hm & Hse).
  apply finditer_from_sound in Hm as [i Hm]. change (0 + i) with i in Hm.
  apply tag_pair_at_inv in Hm as (j & k & Ho & Hj & Hk & ->).
  cbn [m_start1 m_end1] in Hse.
  assert (s = i + (8 + j) /\ e = i + (8 + j) + k) as [-> ->]
    by (injection Hse; intros; split; lia).
  clear Hse.
  pose proof (find_sub_Some _ _ _ Hk) as Hc. rewrite !drop_drop in Hc.
  pose proof (index_of_lookup _ _ _ Hj) as Hgt. rewrite !lookup_drop in Hgt.
  exists i. split; [exact Ho|]. split; [lia|]. split.
  { rewrite <- Hgt. f_equal. lia. }
  split.
  { intros g Hg Hg'.
    destruct (index_of_first ">" (drop 7 (drop i text)) (g - (i + 7))) as (j' & Ej & Hle).
    - rewrite !lookup_drop. rewrite <- Hg'. f_equal. lia.
    - rewrite Hj in Ej. injection Ej as <-. lia. }
  split; [lia|]. split.
  { replace (i + (8 + j) + k) with (i + (8 + j + k)) by lia. exact Hc. }
  split.
  { intros k' Hk'.
    destruct (startswith (lit "</script>") (drop k' text)) eqn:E; [exfalso|reflexivity].
    assert (k <= k' - (i + (8 + j))); [|lia].
    eapply find_sub_first; [exact Hk|].
    rewrite !drop_drop.
    replace (i + (8 + j + (k' - (i + (8 + j))))) with k' by lia. exact E. }
  apply startswith_length in Hc. rewrite length_drop in Hc.
  change (length (lit "</script>")) with 9 in Hc. lia.
Qed.

Lemma region_is_minimal_witness :
  let text := lit "<p><script type=a>x = '</b>'</script></script>" in
  exists i,
    startswith (lit "<script") (drop i text) = true /\
    i + 8 <= 18 /\
    text !! (18 - 1) = Some ">"%char /\
    (forall g, i + 7 <= g < 18 - 1 -> text !! g <> Some ">"%char) /\
    18 <= 28 /\
    startswith (lit "</script>") (drop 28 text) = true /\
    (forall k, 18 <= k < 28 -> startswith (lit "</script>") (drop k text) = false) /\
    28 + 9 <= length text.
Proof.
  apply (region_is_minimal (lit "<p><script type=a>x = '</b>'</script></script>") 18 28).
  apply list_elem_of_singleton. reflexivity.
Defined.

(** X5: a position is classified as embedded only when its offset lies in
    the text, at least eight characters from its start (an opening tag)
    and nine from its end (a closing tag).  A position past the end of the
    text, as a stale request can carry, is never embedded, and the
    completion bridge then answers the empty list without calling a
    collaborator. *)
Theorem embedded_offsets_lie_in_text `{C : Collaborators} (text : str) (p : Position) :
  (is_in_script_region text p = true ->
   8 <= position_to_offset text p /\ position_to_offset text p + 9 <= length text) /\
  (length text < position_to_offset text p + 9 ->
   is_in_script_region text p = false /\
   is_python_code (analyze_context text p) = false /\
   forall t, get_python_completions text p (analyze_context text p) t = (t, Ok [])).
Proof.
  assert (H : is_in_script_region text p = true ->
              8 <= position_to_offset text p /\
              position_to_offset text p + 9 <= length text).
  { intros Hin. apply is_in_script_region_true in Hin as (s & e & Hin & Hs & He).
    destruct (region_tag_pair text s e Hin) as (m & _ & T).
    pose proof (tp_open_len _ _ _ _ T). pose proof (tp_end _ _ _ _ T).
    pose proof (tp_inside _ _ _ _ T). lia. }
  split; [exact H|]. intros Hlen.
  assert (is_in_script_region text p = false) as Hf.
  { destruct (is_in_script_region text p); [|reflexivity].
    destruct (H eq_refl). lia. }
  split; [exact Hf|]. split.
  - rewrite is_python_code_analyze. exact Hf.
  - intros t. apply get_python_completions_not_python.
    rewrite is_python_code_analyze. exact Hf.
Qed.

Lemma embedded_offsets_lie_in_text_witness :
  let C := example_collaborators [] (Ok []) (Ok tt) in
  let text := lit "<script>x</script>" in
  let stale := {| line := 3; character := 2 |} in
  is_in_script_region text stale = false /\
  get_python_completions text stale (analyze_context text stale) [] = ([], Ok []).
Proof.
  pose proof (proj2 (embedded_offsets_lie_in_text
                       (C := example_collaborators [] (Ok []) (Ok tt))
                       (lit "<script>x</script>") {| line := 3; character := 2 |}))
    as H.
  destruct H as (H1 & _ & H3); [cbn; lia|].
  split; [exact H1 | apply H3].
Defined.

Lemma regions_ordered_and_disjoint_witness :
  let text := lit "<script>a</script><script>bc</script>" in
  StronglySorted region_before (find_regions text) /\
  span_contains 27 (8, 9) = false.
Proof.
  pose proof (regions_ordered_and_disjoint (lit "<script>a</script><script>bc</script>"))
    as (H1 & _ & H3).
  split; [exact H1|].
  apply (H3 27 (26, 28) (8, 9)).
  - apply (bool_decide_unpack _). vm_compute. exact I.
  - apply (bool_decide_unpack _). vm_compute. exact I.
  - discriminate.
  - reflexivity.
Defined.

(** ** The first opening tag *)

Lemma finditer_from_all_none (s : str) (pos skip : nat) :
  (forall i, tag_pair_at (drop i s) (pos + i) = None) ->
  finditer_from script_pattern s pos skip = [].
Proof.
  revert pos skip. induction s as [|c s IH]; intros pos skip H.
  - apply finditer_from_nil.
  - assert (forall i, tag_pair_at (drop i s) (S pos + i) = None) as H'.
    { intros i. specialize (H (S i)). cbn [drop] in H.
      replace (pos + S i) with (S pos + i) in H by lia. exact H. }
    destruct skip as [|k].
    + rewrite finditer_from_cons. specialize (H 0).
      rewrite drop_0, Nat.add_0_r in H. rewrite H. apply IH, H'.
    + rewrite finditer_from_skip. apply IH, H'.
Qed.

Lemma finditer_from_pass_failures (s : str) (pos i : nat) :
  (forall i', i' < i -> tag_pair_at (drop i' s) (pos + i') = None) ->
  finditer_from script_pattern s pos 0 =
  finditer_from script_pattern (drop i s) (pos + i) 0.
Proof.
  revert s pos. induction i as [|i IH]; intros s pos H.
  - rewrite drop_0, Nat.add_0_r. reflexivity.
  - destruct s as [|c s].
    + rewrite drop_nil, !finditer_from_nil. reflexivity.
    + rewrite finditer_from_cons.
      pose proof (H 0 ltac:(lia)) as H0. rewrite drop_0, Nat.add_0_r in H0.
      rewrite H0. cbn [drop]. replace (pos + S i) with (S pos + i) by lia.
      apply IH. intros i' Hi'. specialize (H (S i') ltac:(lia)). cbn [drop] in H.
      replace (pos + S i') with (S pos + i') in H by lia. exact H.
Qed.

Lemma tag_pair_at_no_open (s : str) (pos : nat) :
  startswith (lit "<script") s = false -> tag_pair_at s pos = None.
Proof. intros H. unfold tag_pair_at. rewrite H. reflexivity. Qed.

(** Before the first occurrence of [<script] no attempt succeeds. *)
Lemma no_attempt_before_first_open (text : str) (i i' : nat) :
  find_sub (lit "<script") text = Some i -> i' < i ->
  tag_pair_at (drop i' text) (0 + i') = None.
Proof.
  intros Hi Hlt. apply tag_pair_at_no_open.
  destruct (startswith (lit "<script") (drop i' text)) eqn:E; [|reflexivity].
  pose proof (find_sub_first _ _ _ _ Hi E). lia.
Qed.

(** X6: the first opening tag decides whether a text has regions.  When
    the first [<script] of the text is followed by a [>] and, after it, by
    a [</script>], the first region is the content of that tag: from the
    first [>] to the first [</script>].  When it is not (no [>] follows, or
    no [</script>] follows that [>]), or when the text has no [<script],
    the text has no region at all, whatever tags come later. *)
Theorem first_opening_tag_decides (text : str) :
  (find_sub (lit "<script") text = None -> find_regions text = []) /\
  (forall i, find_sub (lit "<script") text = Some i ->
     match index_of ">"%char (drop (i + 7) text) with
     | None => find_regions text = []
     | Some j =>
         match find_sub (lit "</script>") (drop (i + 8 + j) text) with
         | None => find_regions text = []
         | Some k => head (find_regions text) = Some (i + 8 + j, i + 8 + j + k)
         end
     end).
Proof.
  split.
  { intros H. unfold find_regions. rewrite (finditer_no_open text H). reflexivity. }
  intros i Hi.
  pose proof (find_sub_Some _ _ _ Hi) as Hopen.
  assert (Hnone :
    (forall i', i <= i' -> tag_pair_at (drop i' text) (0 + i') = None) ->
    find_regions text = []).
  { intros H. unfold find_regions, finditer.
    rewrite finditer_from_all_none; [reflexivity|].
    intros i'. destruct (Nat.lt_ge_cases i' i) as [Hlt|Hge].
    - exact (no_attempt_before_first_open text i i' Hi Hlt).
    - apply H, Hge. }
  destruct (index_of ">" (drop (i + 7) text)) as [j|] eqn:Hj.
  - destruct (find_sub (lit "</script>") (drop (i + 8 + j) text)) as [k|] eqn:Hk.
    + unfold find_regions, finditer.
      rewrite (finditer_from_pass_failures text 0 i)
        by (intros i' Hi'; exact (no_attempt_before_first_open text i i' Hi Hi')).
      assert (tag_pair_at (drop i text) (0 + i) =
              Some {| m_start := 0 + i; m_end := 0 + i + (8 + j) + k + 9;
                      m_start1 := Some (0 + i + (8 + j));
                      m_end1 := Some (0 + i + (8 + j) + k) |}) as HT.
      { unfold tag_pair_at. rewrite Hopen, drop_drop, Hj. cbv beta iota.
        rewrite drop_drop.
        replace (i + (8 + j)) with (i + 8 + j) by lia. rewrite Hk. reflexivity. }
      rewrite (finditer_from_match _ _ _ HT). cbn [omap list_omap m_start1 m_end1 head].
      do 2 f_equal; lia.
    + apply Hnone. intros i' Hi'. unfold tag_pair_at.
      destruct (startswith (lit "<script") (drop i' text)); [|reflexivity].
      destruct (index_of ">" (drop 7 (drop i' text))) as [j'|] eqn:Hj'; [|reflexivity].
      apply index_of_lookup in Hj'. rewrite !lookup_drop in Hj'.
      destruct (index_of_first ">" (drop (i + 7) text) (i' + (7 + j') - (i + 7)))
        as (j0 & Ej0 & Hle).
      { rewrite lookup_drop. rewrite <- Hj'. f_equal. lia. }
      rewrite Hj in Ej0. injection Ej0 as <-.
      rewrite drop_drop.
      replace (i' + (8 + j')) with (i + 8 + j + (i' + (8 + j') - (i + 8 + j))) by lia.
      rewrite <- drop_drop. rewrite (find_sub_drop_None _ _ _ Hk). reflexivity.
  - apply Hnone. intros i' Hi'. unfold tag_pair_at.
    destruct (startswith (lit "<script") (drop i' text)); [|reflexivity].
    destruct (index_of ">" (drop 7 (drop i' text))) as [j'|] eqn:Hj'; [|reflexivity].
    exfalso. apply index_of_lookup in Hj'. rewrite !lookup_drop in Hj'.
    destruct (index_of_first ">" (drop (i + 7) text) (i' + (7 + j') - (i + 7)))
      as (j0 & Ej0 & _).
    { rewrite lookup_drop. rewrite <- Hj'. f_equal. lia. }
    congruence.
Qed.

Lemma first_opening_tag_decides_witness :
  let text := lit "<b>hi</b><script lang=py>x</script><script>" in
  head (find_regions text) = Some (25, 26).
Proof.
  exact (proj2 (first_opening_tag_decides
                  (lit "<b>hi</b><script lang=py>x</script><script>")) 9 eq_refl).
Defined.

(** ** The completion bridge, on every path *)


Section BridgeProofs.
Context `{C : Collaborators}.

Lemma analysis_call_intro (c : callee) (arg : str) :
  c ∈ [ConstructAst; AstUnparse; JediScript; ScriptComplete] ->
  is_analysis_call (Invoke c arg).
Proof. intros H. exists c, arg. split; [reflexivity | exact H]. Qed.

(** The body of the [try] only calls the synthesis and analysis
    collaborators. *)
Lemma complete_with_jedi_trace (tmp_path : str) (context : CompletionContext)
    (t : trace) :
  exists t' r, complete_with_jedi tmp_path context t = (t ++ t', r) /\
               Forall is_analysis_call t'.
Proof.
  unfold complete_with_jedi, bind, invoke.
  assert (A1 : is_analysis_call (Invoke ConstructAst tmp_path))
    by (apply analysis_call_intro; set_solver).
  assert (A2 : is_analysis_call (Invoke AstUnparse []))
    by (apply analysis_call_intro; set_solver).
  assert (A4 : is_analysis_call (Invoke ScriptComplete []))
    by (apply analysis_call_intro; set_solver).
  destruct (construct_ast tmp_path (full_source context)) as [ast|e].
  2:{ exists [Invoke ConstructAst tmp_path], (Raise e). split; [reflexivity|].
      repeat constructor; assumption. }
  destruct (ast_unparse ast) as [vs|e].
  2:{ exists [Invoke ConstructAst tmp_path; Invoke AstUnparse []], (Raise e).
      split; [rewrite <- app_assoc; reflexivity|]. repeat constructor; assumption. }
  assert (A3 : is_analysis_call (Invoke JediScript vs))
    by (apply analysis_call_intro; set_solver).
  destruct (jedi_script vs tmp_path) as [sc|e].
  2:{ exists [Invoke ConstructAst tmp_path; Invoke AstUnparse []; Invoke JediScript vs],
        (Raise e).
      split; [rewrite <- !app_assoc; reflexivity|]. repeat constructor; assumption. }
  destruct (script_complete sc (line (original_position context) + 1)
              (character (original_position context))) as [comps|e].
  2:{ exists [Invoke ConstructAst tmp_path; Invoke AstUnparse []; Invoke JediScript vs;
              Invoke ScriptComplete []], (Raise e).
      split; [rewrite <- !app_assoc; reflexivity|]. repeat constructor; assumption. }
  rewrite for_each_lift.
  exists [Invoke ConstructAst tmp_path; Invoke AstUnparse []; Invoke JediScript vs;
          Invoke ScriptComplete []], (completion_items comps).
  split; [rewrite <- !app_assoc; reflexivity|]. repeat constructor; assumption.
Qed.

Lemma completion_item_fields (comp : JediCompletion) (item : CompletionItem) :
  completion_item comp = Ok item -> item_of_completion comp item.
Proof.
  unfold completion_item, item_of_completion. intros H.
  destruct (comp_docstring comp false) as [doc|e] eqn:D; [|discriminate].
  destruct doc as [|c doc].
  - injection H as <-. cbn.
    do 6 (split; [reflexivity|]). left. split; reflexivity.
  - destruct (comp_docstring comp true) as [raw|e] eqn:R; [|discriminate].
    injection H as <-. cbn.
    do 6 (split; [reflexivity|]). right.
    exists (c :: doc), raw.
    split; [reflexivity|]. split; [discriminate|]. split; reflexivity.
Qed.

Lemma completion_items_fields (comps : list JediCompletion) (items : list CompletionItem) :
  completion_items comps = Ok items -> Forall2 item_of_completion comps items.
Proof.
  revert items. induction comps as [|comp comps IH]; intros items H; cbn in H.
  - injection H as <-. constructor.
  - destruct (completion_item comp) as [item|e] eqn:E; [|discriminate].
    destruct (completion_items comps) as [rest|e]; [|discriminate].
    injection H as <-. constructor; [apply completion_item_fields, E | apply IH; reflexivity].
Qed.

Lemma completion_items_total (comps : list JediCompletion) :
  Forall (fun comp => forall raw, exists doc, comp_docstring comp raw = Ok doc) comps ->
  exists items, completion_items comps = Ok items.
Proof.
  induction 1 as [|comp comps Hc _ [items IH]]; [exists []; reflexivity|].
  cbn. unfold completion_item.
  destruct (Hc false) as [doc ->]. destruct (Hc true) as [raw ->].
  rewrite IH. destruct doc; eexists; reflexivity.
Qed.

End BridgeProofs.

(** X7: [unlink] is the last call of [get_python_completions] once the
    scratch file is written, and it is not called when the write raises.
    When the context is not Python nothing is called.  When the scratch
    file cannot be created, nothing else is called and the exception
    reaches the caller.  When it is created and [write] raises, the
    exception reaches the caller and the call ends there: the file, which
    is not deleted on close, is never unlinked.  Once the file is written,
    whatever the synthesis and analysis collaborators do, the [unlink] of
    its path is the last effect, and between the write and the [unlink]
    only those collaborators are called. *)
Theorem scratch_file_unlinked_unless_write_fails `{C : Collaborators}
    (source : str) (position : Position) (context : CompletionContext) (t : trace) :
  (is_python_code context = false ->
   get_python_completions source position context t = (t, Ok [])) /\
  (forall e, is_python_code context = true ->
     named_temporary_file (lit ".cgx") = Raise e ->
     get_python_completions source position context t =
     (t ++ [Invoke NamedTemporaryFile (lit ".cgx")], Raise e)) /\
  (forall tmp_path e, is_python_code context = true ->
     named_temporary_file (lit ".cgx") = Ok tmp_path ->
     tmp_file_write tmp_path (full_source context) = Raise e ->
     get_python_completions source position context t =
     (t ++ [Invoke NamedTemporaryFile (lit ".cgx");
            Invoke TmpFileWrite (full_source context)], Raise e)) /\
  (forall tmp_path, is_python_code context = true ->
     named_temporary_file (lit ".cgx") = Ok tmp_path ->
     tmp_file_write tmp_path (full_source context) = Ok tt ->
     exists t' r,
       get_python_completions source position context t =
       (t ++ [Invoke NamedTemporaryFile (lit ".cgx");
              Invoke TmpFileWrite (full_source context)] ++ t'
          ++ [Invoke Unlink tmp_path], r) /\
       Forall is_analysis_call t').
Proof.
  split; [apply get_python_completions_not_python|]. split; [|split].
  - intros e Hpy Hcreate. unfold get_python_completions, bind, invoke.
    rewrite Hpy, Hcreate. reflexivity.
  - intros tmp_path e Hpy Hcreate Hwrite. unfold get_python_completions, bind, invoke.
    rewrite Hpy, Hcreate, Hwrite. cbn [negb]. rewrite <- app_assoc. reflexivity.
  - intros tmp_path Hpy Hcreate Hwrite.
    assert (Htmp : temp_file (full_source context) = Ok tmp_path)
      by (unfold temp_file; rewrite Hcreate, Hwrite; reflexivity).
    rewrite (get_python_completions_written source position context tmp_path t Hpy Htmp).
    destruct (complete_with_jedi_trace tmp_path context
                ((t ++ [Invoke NamedTemporaryFile (lit ".cgx")])
                   ++ [Invoke TmpFileWrite (full_source context)]))
      as (t' & r & Ht' & Hall).
    unfold try_finally, try_except. rewrite Ht'. unfold ret, invoke.
    destruct r as [items|e]; destruct (unlink tmp_path) as [[]|e'];
      eexists t', _; (split; [rewrite <- !app_assoc; reflexivity | exact Hall]).
Qed.

Lemma scratch_file_unlinked_unless_write_fails_witness :
  let context := {| is_python_code := true; full_source := lit "<script>x</script>";
                    original_position := {| line := 0; character := 8 |} |} in
  (let C := full_disk_collaborators in
   get_python_completions (lit "<script>x</script>") {| line := 0; character := 8 |}
     context [] =
   ([] ++ [Invoke NamedTemporaryFile (lit ".cgx");
           Invoke TmpFileWrite (lit "<script>x</script>")],
    Raise (Exception (lit "No space left on device")))) /\
  (let C := example_collaborators [] (Ok [])
              (Raise (Exception (lit "invalid syntax"))) in
   exists t' r,
     get_python_completions (lit "<script>x</script>") {| line := 0; character := 8 |}
       context [] =
     ([] ++ [Invoke NamedTemporaryFile (lit ".cgx");
             Invoke TmpFileWrite (lit "<script>x</script>")] ++ t'
         ++ [Invoke Unlink (lit "/tmp/tmpk3v9.cgx")], r) /\
     Forall is_analysis_call t').
Proof.
  cbv zeta. split.
  - apply (proj1 (proj2 (proj2 (scratch_file_unlinked_unless_write_fails
                                  (C := full_disk_collaborators)
                                  (lit "<script>x</script>") {| line := 0; character := 8 |}
                                  {| is_python_code := true;
                                     full_source := lit "<script>x</script>";
                                     original_position := {| line := 0; character := 8 |} |}
                                  []))) (lit "/tmp/tmpk3v9.cgx")); reflexivity.
  - apply (proj2 (proj2 (proj2 (scratch_file_unlinked_unless_write_fails
                                  (C := example_collaborators [] (Ok [])
                                          (Raise (Exception (lit "invalid syntax"))))
                                  (lit "<script>x</script>") {| line := 0; character := 8 |}
                                  {| is_python_code := true;
                                     full_source := lit "<script>x</script>";
                                     original_position := {| line := 0; character := 8 |} |}
                                  [])))); reflexivity.
Defined.

(** X8: the only exceptions [get_python_completions] lets through are those
    of the scratch file: if the call raises, the context was Python and
    either writing the file (the [with] block: creating it, or writing and
    closing it) or removing it raised that exception.  No exception of
    [construct_ast], [ast.unparse] or Jedi reaches the caller. *)
Theorem only_scratch_file_exceptions_escape `{C : Collaborators}
    (source : str) (position : Position) (context : CompletionContext)
    (t : trace) (e : exn) :
  snd (get_python_completions source position context t) = Raise e ->
  is_python_code context = true /\
  (temp_file (full_source context) = Raise e \/
   exists tmp_path, temp_file (full_source context) = Ok tmp_path /\
                    unlink tmp_path = Raise e).
Proof.
  destruct (is_python_code context) eqn:Hpy.
  2:{ rewrite get_python_completions_not_python by exact Hpy. discriminate. }
  intros H. split; [reflexivity|].
  destruct (temp_file (full_source context)) as [tmp_path|e0] eqn:Htmp.
  - right. exists tmp_path. split; [reflexivity|].
    rewrite (get_python_completions_written source position context tmp_path t
               Hpy Htmp) in H.
    unfold try_finally, try_except, invoke in H.
    destruct (complete_with_jedi tmp_path context _) as [t' [items|e1]];
      unfold ret in H; destruct (unlink tmp_path) as [[]|e2];
      cbn in H; congruence.
  - left. f_equal. apply temp_file_Raise in Htmp.
    unfold get_python_completions, bind, invoke in H. rewrite Hpy in H.
    cbn [negb] in H.
    destruct Htmp as [Hc | (p & Hc & Hw)]; rewrite Hc in H; [|rewrite Hw in H];
      cbn in H; congruence.
Qed.

Lemma only_scratch_file_exceptions_escape_witness :
  let C := full_disk_collaborators in
  let context := {| is_python_code := true; full_source := lit "<script>x</script>";
                    original_position := {| line := 0; character := 8 |} |} in
  is_python_code context = true /\
  (temp_file (full_source context) = Raise (Exception (lit "No space left on device")) \/
   exists tmp_path, temp_file (full_source context) = Ok tmp_path /\
                    unlink tmp_path = Raise (Exception (lit "No space left on device"))).
Proof.
  cbv zeta.
  apply (only_scratch_file_exceptions_escape
           (C := full_disk_collaborators)
           (lit "<script>x</script>") {| line := 0; character := 8 |}
           {| is_python_code := true; full_source := lit "<script>x</script>";
              original_position := {| line := 0; character := 8 |} |} []).
  reflexivity.
Defined.

(** X9: when every collaborator succeeds, the answer of
    [get_python_completions] holds one item per completion of Jedi, in
    Jedi's order: the label, the inserted text and the sort text are the
    completion's name, the kind is the mapped type, the detail is the
    description, and the documentation is the raw docstring, or nothing
    when the docstring is empty.  Jedi is asked at the line of the position
    plus one and at its character. *)
Theorem completions_keep_engine_order `{C : Collaborators}
    (source : str) (position : Position) (context : CompletionContext) (t : trace)
    (tmp_path : str) (ast : Ast) (virtual_source : str) (script : Script)
    (completions : list JediCompletion) :
  is_python_code context = true ->
  temp_file (full_source context) = Ok tmp_path ->
  construct_ast tmp_path (full_source context) = Ok ast ->
  ast_unparse ast = Ok virtual_source ->
  jedi_script virtual_source tmp_path = Ok script ->
  script_complete script (line (original_position context) + 1)
    (character (original_position context)) = Ok completions ->
  Forall (fun comp => forall raw, exists doc, comp_docstring comp raw = Ok doc)
    completions ->
  unlink tmp_path = Ok tt ->
  exists t' items,
    get_python_completions source position context t = (t', Ok items) /\
    Forall2 item_of_completion completions items.
Proof.
  intros Hpy Htmp H1 H2 H3 H4 Hdoc Hunlink.
  destruct (completion_items_total completions Hdoc) as [items Hitems].
  exists (t ++ [Invoke NamedTemporaryFile (lit ".cgx");
                Invoke TmpFileWrite (full_source context)]
            ++ [Invoke ConstructAst tmp_path; Invoke AstUnparse [];
                Invoke JediScript virtual_source; Invoke ScriptComplete []]
            ++ [Invoke Unlink tmp_path]), items.
  split; [|apply completion_items_fields, Hitems].
  rewrite (get_python_completions_written source position context tmp_path t Hpy Htmp).
  unfold try_finally, try_except, complete_with_jedi, bind, invoke.
  rewrite H1, H2, H3, H4, for_each_lift, Hitems, Hunlink.
  rewrite <- !app_assoc. reflexivity.
Qed.

Lemma completions_keep_engine_order_witness :
  let C := working_collaborators in
  let source := lit "<script>import os; os.</script>" in
  let position := {| line := 0; character := 22 |} in
  exists t' items,
    get_python_completions source position (analyze_context source position) [] =
    (t', Ok items) /\
    Forall2 item_of_completion os_completions items.
Proof.
  apply (completions_keep_engine_order (C := working_collaborators)
           (lit "<script>import os; os.</script>") {| line := 0; character := 22 |}
           (analyze_context (lit "<script>import os; os.</script>")
              {| line := 0; character := 22 |})
           [] (lit "/tmp/tmpk3v9.cgx") tt (lit "import os") tt os_completions);
    try reflexivity.
  repeat constructor; intros raw; eexists; reflexivity.
Defined.

(** ** The dispatcher, on every path *)


Lemma published_app (t1 t2 : trace) : published (t1 ++ t2) = published t1 ++ published t2.
Proof. unfold published. apply omap_app. Qed.

Lemma for_each_lift_result {A B} (f : A -> result B) (l : list A) (t : trace) :
  for_each (fun a => lift (f a)) l t = (t, map_result f l).
Proof.
  induction l as [|a l IH]; [reflexivity|].
  cbn [for_each map_result]. unfold bind, lift at 1.
  destruct (f a) as [b|e]; [|reflexivity].
  rewrite IH. destruct (map_result f l); reflexivity.
Qed.

Lemma uinteger_in_range (name : str) (v : Z) :
  is_uinteger v -> uinteger name v = Ok (Z.to_nat v).
Proof.
  unfold is_uinteger, uinteger. intros [H1 H2].
  apply Z.leb_le in H1, H2. rewrite H1, H2. reflexivity.
Qed.

Lemma uinteger_out_of_range (name : str) (v : Z) :
  ~ is_uinteger v -> exists e, uinteger name v = Raise e.
Proof.
  unfold is_uinteger, uinteger. intros H.
  destruct ((0 <=? v)%Z && (v <=? UINTEGER_MAX_VALUE)%Z) eqn:E; [|eexists; reflexivity].
  exfalso. apply H. apply andb_prop in E as [H1 H2].
  apply Z.leb_le in H1, H2. split; assumption.
Qed.

Lemma to_lsp_diagnostic_in_range (d : CgxDiagnostic) :
  diagnostic_in_range d -> to_lsp_diagnostic d = Ok (lsp_diagnostic_of d).
Proof.
  intros (H1 & H2 & H3 & H4). unfold to_lsp_diagnostic, mk_Position.
  rewrite !uinteger_in_range by assumption. reflexivity.
Qed.

Lemma to_lsp_diagnostic_out_of_range (d : CgxDiagnostic) :
  ~ diagnostic_in_range d -> exists e, to_lsp_diagnostic d = Raise e.
Proof.
  intros H. unfold to_lsp_diagnostic, mk_Position.
  destruct (uinteger (lit "Position.line") (d_line d)) eqn:E1; [|eexists; reflexivity].
  destruct (uinteger (lit "Position.character") (d_column d)) eqn:E2;
    [|eexists; reflexivity].
  destruct (uinteger (lit "Position.line") (d_end_line d)) eqn:E3; [|eexists; reflexivity].
  destruct (uinteger (lit "Position.character") (d_end_column d)) eqn:E4;
    [|eexists; reflexivity].
  exfalso. apply H.
  assert (ok : forall name v n, uinteger name v = Ok n -> is_uinteger v).
  { intros name v n. unfold uinteger, is_uinteger.
    destruct ((0 <=? v)%Z && (v <=? UINTEGER_MAX_VALUE)%Z) eqn:E; [|discriminate].
    intros _. apply andb_prop in E as [A B]. apply Z.leb_le in A, B. split; assumption. }
  repeat split; eapply ok; eassumption.
Qed.

Lemma map_result_in_range (diags : list CgxDiagnostic) :
  Forall diagnostic_in_range diags ->
  map_result to_lsp_diagnostic diags = Ok (lsp_diagnostic_of <$> diags).
Proof.
  induction 1 as [|d diags Hd _ IH]; [reflexivity|].
  cbn [map_result]. rewrite (to_lsp_diagnostic_in_range d Hd), IH. reflexivity.
Qed.

Lemma map_result_out_of_range (diags : list CgxDiagnostic) :
  Exists (fun d => ~ diagnostic_in_range d) diags ->
  exists e, map_result to_lsp_diagnostic diags = Raise e.
Proof.
  induction 1 as [d diags Hd | d diags _ [e IH]]; cbn [map_result].
  - destruct (to_lsp_diagnostic_out_of_range d Hd) as [e ->]. eexists; reflexivity.
  - destruct (to_lsp_diagnostic d); [|eexists; reflexivity].
    rewrite IH. eexists; reflexivity.
Qed.

(** Reads the notifications off a trace built by appending events. *)
Local Ltac published_trace :=
  cbn [fst]; rewrite ?published_app; cbn [published omap list_omap app];
  rewrite ?app_nil_r; reflexivity.

Section DispatcherProofs.
Context `{C : Collaborators}.

(** What [validate_document] does, case by case. *)
Lemma validate_document_cases (uri : str) (t : trace) :
  snd (validate_document uri t) = Ok tt /\
  (published (fst (validate_document uri t)) = published t \/
   exists ds, published (fst (validate_document uri t)) =
              published t ++ [{| pd_uri := uri; pd_diagnostics := ds |}]).
Proof.
  unfold validate_document, try_except, bind, log, emit, invoke.
  destruct (is_cgx uri); cbn [negb].
  2:{ split; [reflexivity|]. left. cbn [fst]. rewrite published_app, app_nil_r. reflexivity. }
  destruct (get_text_document uri) as [content|e].
  2:{ split; [reflexivity|]. left. cbn [fst].
      rewrite !published_app, !app_nil_r. reflexivity. }
  destruct (lint_cgx_content content) as [diags|e].
  2:{ split; [reflexivity|]. left. cbn [fst].
      rewrite !published_app. cbn. rewrite !app_nil_r. reflexivity. }
  rewrite for_each_lift_result.
  destruct (map_result to_lsp_diagnostic diags) as [lsp|e].
  - split; [reflexivity|]. right. exists lsp. cbn [fst].
    rewrite !published_app. cbn. rewrite !app_nil_r. reflexivity.
  - split; [reflexivity|]. left. cbn [fst].
    rewrite !published_app. cbn. rewrite !app_nil_r. reflexivity.
Qed.

End DispatcherProofs.

(** X10: [_severity_to_lsp] maps the four severities of the linter to the
    protocol's, and every other string, a differently cased one included,
    to Warning. *)
Theorem severity_defaults_to_warning (severity : str) :
  _severity_to_lsp (lit "error") = SevError /\
  _severity_to_lsp (lit "warning") = SevWarning /\
  _severity_to_lsp (lit "info") = SevInformation /\
  _severity_to_lsp (lit "hint") = SevHint /\
  (severity ∉ [lit "error"; lit "warning"; lit "info"; lit "hint"] ->
   _severity_to_lsp severity = SevWarning).
Proof.
  repeat (split; [vm_compute; reflexivity|]).
  intros H. unfold _severity_to_lsp, severity_mapping.
  rewrite (not_elem_of_list_to_map_1 _ severity); [reflexivity|exact H].
Qed.

Lemma severity_defaults_to_warning_witness :
  _severity_to_lsp (lit "Error") = SevWarning.
Proof.
  apply (severity_defaults_to_warning (lit "Error")).
  apply (bool_decide_unpack _). vm_compute. exact I.
Defined.

(** X11: no failure of a collaborator leaves a guarded handler.  Whatever
    the workspace, the linter, the formatter and the token provider do,
    [validate_document] and the open, change and save events return
    normally, [formatting] returns a list of at most one edit, and
    [semantic_tokens_full] returns a token set. *)
Theorem guarded_handlers_never_raise `{C : Collaborators} (uri : str) (t : trace) :
  snd (validate_document uri t) = Ok tt /\
  snd (did_open uri t) = Ok tt /\
  snd (did_change uri t) = Ok tt /\
  snd (did_save uri t) = Ok tt /\
  (exists edits, snd (formatting uri t) = Ok edits /\ length edits <= 1) /\
  (exists tokens, snd (semantic_tokens_full uri t) = Ok tokens).
Proof.
  split; [apply validate_document_cases|].
  split; [unfold did_open, bind, log, emit; apply validate_document_cases|].
  split; [unfold did_change, bind, log, emit; apply validate_document_cases|].
  split; [unfold did_save, bind, log, emit; apply validate_document_cases|].
  split.
  - unfold formatting, try_except, bind, log, emit, invoke, lift, ret.
    destruct (is_cgx uri); cbn [negb]; [|exists []; split; [reflexivity|cbn; lia]].
    destruct (get_text_document uri) as [content|e];
      [|exists []; split; [reflexivity|cbn; lia]].
    destruct (format_cgx_content content uri) as [formatted|e];
      [|exists []; split; [reflexivity|cbn; lia]].
    destruct (bool_decide (formatted = content));
      [exists []; split; [reflexivity|cbn; lia]|].
    destruct (whole_document_edit content formatted) as [edit|e].
    + exists [edit]. split; [reflexivity|cbn; lia].
    + exists []. split; [reflexivity|cbn; lia].
  - unfold semantic_tokens_full, try_except, bind, log, emit, invoke, ret.
    destruct (is_cgx uri); cbn [negb]; [|eexists; reflexivity].
    destruct (get_text_document uri) as [content|e]; [|eexists; reflexivity].
    destruct (get_tokens content uri) as [tokens|e]; [|eexists; reflexivity].
    destruct (encode_tokens tokens) as [data|e]; eexists; reflexivity.
Qed.

(** X12: a validation that succeeds publishes the diagnostics of the
    linter, converted one by one and in the linter's order, in a single
    notification for the handle: when the handle ends in [.cgx], the
    document can be read, the linter answers, and every coordinate of
    every diagnostic is an unsigned integer. *)
Theorem validation_publishes_linter_diagnostics `{C : Collaborators}
    (uri content : str) (diags : list CgxDiagnostic) (t : trace) :
  is_cgx uri = true ->
  get_text_document uri = Ok content ->
  lint_cgx_content content = Ok diags ->
  Forall diagnostic_in_range diags ->
  validate_document uri t =
  (t ++ [Invoke GetTextDocument uri;
         Log INFO (lit "Validating document: " ++ uri);
         Invoke LintCgxContent content;
         Publish {| pd_uri := uri; pd_diagnostics := lsp_diagnostic_of <$> diags |};
         Log INFO (lit "Published " ++ str_of_nat (length diags)
                   ++ lit " diagnostics for " ++ uri)],
   Ok tt).
Proof.
  intros Hcgx Hdoc Hlint Hrange.
  unfold validate_document, try_except, bind, log, emit, invoke.
  rewrite Hcgx. cbn [negb]. rewrite Hdoc, Hlint, for_each_lift_result.
  rewrite (map_result_in_range diags Hrange), length_fmap.
  rewrite <- !app_assoc. reflexivity.
Qed.

Lemma validation_publishes_linter_diagnostics_witness :
  let C := linting_collaborators (lit "import os") [unused_import] in
  published (fst (run (validate_document (lit "file:///a.cgx")))) =
  [{| pd_uri := lit "file:///a.cgx";
      pd_diagnostics :=
        [{| diag_range := {| range_start := {| line := 5; character := 7 |};
                             range_end := {| line := 5; character := 9 |} |};
            diag_message := lit "`os` imported but unused";
            diag_severity := SevWarning;
            diag_code := lit "F401";
            diag_source := lit "ruff-cgx" |}] |}].
Proof.
  cbv zeta. unfold run.
  rewrite (validation_publishes_linter_diagnostics
             (C := linting_collaborators (lit "import os") [unused_import])
             (lit "file:///a.cgx") (lit "import os") [unused_import] []
             eq_refl eq_refl eq_refl).
  - vm_compute. reflexivity.
  - repeat constructor; vm_compute; discriminate.
Defined.

(** X13: one diagnostic with a coordinate lsprotocol rejects (a negative
    line, say) costs the document all its diagnostics: the conversion
    raises inside the [try], nothing is published, the error is logged
    and the handler returns normally. *)
Theorem one_bad_diagnostic_drops_all `{C : Collaborators}
    (uri content : str) (diags : list CgxDiagnostic) (t : trace) :
  is_cgx uri = true ->
  get_text_document uri = Ok content ->
  lint_cgx_content content = Ok diags ->
  Exists (fun d => ~ diagnostic_in_range d) diags ->
  exists e,
    validate_document uri t =
    (t ++ [Invoke GetTextDocument uri;
           Log INFO (lit "Validating document: " ++ uri);
           Invoke LintCgxContent content;
           Log ERROR (lit "Error validating document " ++ uri ++ lit ": " ++ exn_msg e)],
     Ok tt) /\
    published (fst (validate_document uri t)) = published t.
Proof.
  intros Hcgx Hdoc Hlint Hbad.
  destruct (map_result_out_of_range diags Hbad) as [e He]. exists e.
  unfold validate_document, try_except, bind, log, emit, invoke.
  rewrite Hcgx. cbn [negb]. rewrite Hdoc, Hlint, for_each_lift_result, He.
  cbn [fst]. split.
  - rewrite <- !app_assoc. reflexivity.
  - rewrite !published_app. cbn. rewrite !app_nil_r. reflexivity.
Qed.

Lemma one_bad_diagnostic_drops_all_witness :
  let C := linting_collaborators (lit "import os") [unused_import; misplaced_diagnostic] in
  exists e,
    validate_document (lit "file:///a.cgx") [] =
    ([] ++ [Invoke GetTextDocument (lit "file:///a.cgx");
            Log INFO (lit "Validating document: " ++ lit "file:///a.cgx");
            Invoke LintCgxContent (lit "import os");
            Log ERROR (lit "Error validating document " ++ lit "file:///a.cgx"
                       ++ lit ": " ++ exn_msg e)],
     Ok tt) /\
    published (fst (validate_document (lit "file:///a.cgx") [])) = published [].
Proof.
  apply (one_bad_diagnostic_drops_all
           (C := linting_collaborators (lit "import os")
                   [unused_import; misplaced_diagnostic])
           (lit "file:///a.cgx") (lit "import os")
           [unused_import; misplaced_diagnostic] [] eq_refl eq_refl eq_refl).
  right. left. intros (H & _). destruct H as [H _]. vm_compute in H. apply H. reflexivity.
Defined.

(** X14: what the handlers publish.  [validate_document] publishes at most
    one notification, and it is for the handle it was given; the open,
    change and save events publish what their validation publishes;
    [formatting] and [semantic_tokens_full] publish nothing. *)
Theorem handlers_publish_at_most_once `{C : Collaborators} (uri : str) (t : trace) :
  (published (fst (validate_document uri t)) = published t \/
   exists ds, published (fst (validate_document uri t)) =
              published t ++ [{| pd_uri := uri; pd_diagnostics := ds |}]) /\
  published (fst (did_open uri t)) = published (fst (validate_document uri t)) /\
  published (fst (did_change uri t)) = published (fst (validate_document uri t)) /\
  published (fst (did_save uri t)) = published (fst (validate_document uri t)) /\
  published (fst (formatting uri t)) = published t /\
  published (fst (semantic_tokens_full uri t)) = published t.
Proof.
  assert (V : forall ev, published (fst (validate_document uri (t ++ [Log INFO ev]))) =
                         published (fst (validate_document uri t))).
  { intros ev. unfold validate_document, try_except, bind, log, emit, invoke.
    destruct (is_cgx uri); cbn [negb]; [|published_trace].
    destruct (get_text_document uri) as [content|e]; [|published_trace].
    destruct (lint_cgx_content content) as [diags|e]; [|published_trace].
    rewrite !for_each_lift_result.
    destruct (map_result to_lsp_diagnostic diags); published_trace. }
  split; [apply validate_document_cases|].
  split; [unfold did_open, bind, log, emit; apply V|].
  split; [unfold did_change, bind, log, emit; apply V|].
  split; [unfold did_save, bind, log, emit; apply V|].
  split.
  - unfold formatting, try_except, bind, log, emit, invoke, lift, ret.
    destruct (is_cgx uri); cbn [negb]; [|published_trace].
    destruct (get_text_document uri) as [content|e]; [|published_trace].
    destruct (format_cgx_content content uri) as [formatted|e]; [|published_trace].
    destruct (bool_decide (formatted = content)); [published_trace|].
    destruct (whole_document_edit content formatted); published_trace.
  - unfold semantic_tokens_full, try_except, bind, log, emit, invoke, ret.
    destruct (is_cgx uri); cbn [negb]; [|published_trace].
    destruct (get_text_document uri) as [content|e]; [|published_trace].
    destruct (get_tokens content uri) as [tokens|e]; [|published_trace].
    destruct (encode_tokens tokens); published_trace.
Qed.

(** X15: closing clears.  After a document is opened and then closed, the
    last notification published is the empty diagnostic set for its
    handle, whatever the validation at opening published or failed to
    publish. *)
Theorem close_after_open_clears_diagnostics `{C : Collaborators} (uri : str) (t : trace) :
  snd ((did_open uri ;;; did_close uri)%eff t) = Ok tt /\
  last (published (fst ((did_open uri ;;; did_close uri)%eff t))) =
  Some {| pd_uri := uri; pd_diagnostics := [] |}.
Proof.
  unfold bind at 1 2.
  destruct (did_open uri t) as [t' r] eqn:E.
  assert (r = Ok tt) as ->.
  { change r with (snd (t', r)). rewrite <- E.
    unfold did_open, bind, log, emit. apply validate_document_cases. }
  unfold did_close, bind, log, emit. cbn [fst snd]. split; [reflexivity|].
  rewrite !published_app. cbn. rewrite app_nil_r. apply last_snoc.
Qed.

(** ** The file-kind check *)

Lemma startswith_iff (p s : str) : startswith p s = true <-> exists r, s = p ++ r.
Proof.
  split.
  - intros H. exists (drop (length p) s). apply startswith_inv, H.
  - intros [r ->]. apply startswith_app.
Qed.

(** The file-kind check [uri.endswith(".cgx")] accepts exactly the handles
    that are some text followed by [.cgx], in lower case: a handle such as
    [a.CGX] or [a.cgx.bak] is skipped. *)
Lemma is_cgx_exactly_the_suffix (uri : str) :
  is_cgx uri = true <-> exists stem, uri = stem ++ lit ".cgx".
Proof.
  unfold is_cgx, endswith. rewrite startswith_iff. split.
  - intros [r H]. exists (reverse r).
    apply (f_equal reverse) in H. rewrite reverse_involutive in H.
    rewrite H, reverse_app, reverse_involutive. reflexivity.
  - intros [stem ->]. exists (reverse stem). apply reverse_app.
Qed.

(** ** The edit of the whole document *)


Lemma is_linebreak_LF : is_linebreak LF = true.
Proof. reflexivity. Qed.

Lemma is_linebreak_CR : is_linebreak CR = true.
Proof. reflexivity. Qed.

(** On a text with line feeds only, [splitlines(keepends=True)] is
    [split("\n")] with the line feeds put back. *)
Lemma splitlines_from_lf (s cur : str) :
  lf_only s ->
  splitlines_from cur s =
  match split_lines s with
  | l :: ls => keepends ((cur ++ l) :: ls)
  | [] => []
  end.
Proof.
  intros H. revert cur. induction H as [|c s Hc Hs IH]; intros cur.
  - cbn. rewrite app_nil_r. reflexivity.
  - destruct (ascii_eq_dec_lf c) as [->|Hne].
    + rewrite split_lines_cons_lf. cbn [splitlines_from].
      change (Ascii.eqb LF CR) with false. cbv iota. rewrite is_linebreak_LF.
      rewrite IH. rewrite app_nil_r.
      destruct (split_lines s) as [|l ls] eqn:E.
      * exfalso. exact (split_lines_nonempty s E).
      * reflexivity.
    + destruct (split_lines_cons_other c s Hne) as (l0 & ls & E1 & E2).
      rewrite E2. cbn [splitlines_from].
      assert (is_linebreak c = false) as Hb.
      { destruct (is_linebreak c) eqn:B; [|reflexivity]. exfalso. apply Hne, Hc, eq_refl. }
      assert (Ascii.eqb c CR = false) as Hcr.
      { destruct (Ascii.eqb c CR) eqn:B; [|reflexivity].
        apply Ascii.eqb_eq in B. subst c. rewrite is_linebreak_CR in Hb. discriminate. }
      rewrite Hcr, Hb, IH, E1. rewrite <- app_assoc. reflexivity.
Qed.

Lemma keepends_empty (l : str) (ls : list str) :
  keepends (l :: ls) = [] -> l = [] /\ ls = [].
Proof.
  destruct ls; cbn; [|discriminate]. destruct l; [auto|discriminate].
Qed.

(** The end of the last line: the lines before it and its own length add
    up to the whole text. *)
Lemma keepends_end (pieces : list str) :
  keepends pieces <> [] ->
  sum_list_with (fun l : str => length l + 1)
    (take (length (keepends pieces) - 1) pieces)
  + length (default [] (last (keepends pieces))) + 1 =
  sum_list_with (fun l : str => length l + 1) pieces.
Proof.
  induction pieces as [|l ls IH]; [cbn; congruence|].
  destruct ls as [|l' ls'].
  - cbn [keepends]. destruct l as [|c l]; [congruence|]. intros _. cbn. lia.
  - intros _. change (keepends (l :: l' :: ls')) with ((l ++ [LF]) :: keepends (l' :: ls')).
    destruct (keepends (l' :: ls')) as [|k ks] eqn:K.
    + apply keepends_empty in K as [-> ->]. cbn. rewrite length_app. cbn. lia.
    + specialize (IH ltac:(discriminate)).
      cbn [length] in *. replace (S (S (length ks)) - 1) with (S (length ks)) by lia.
      replace (S (length ks) - 1) with (length ks) in IH by lia.
      cbn [take]. rewrite last_cons_cons.
      change (sum_list_with (fun l0 : str => length l0 + 1)
                (l :: take (length ks) (l' :: ls')))
        with (length l + 1 + sum_list_with (fun l0 : str => length l0 + 1)
                               (take (length ks) (l' :: ls'))).
      change (sum_list_with (fun l0 : str => length l0 + 1) (l :: l' :: ls'))
        with (length l + 1 + sum_list_with (fun l0 : str => length l0 + 1) (l' :: ls')).
      lia.
Qed.

Lemma position_to_offset_end_of_lines (content : str) :
  lf_only content -> content <> [] ->
  let lines := splitlines_keepends content in
  position_to_offset content
    {| line := length lines - 1; character := length (default [] (last lines)) |} =
  length content.
Proof.
  intros Hlf Hne lines.
  assert (lines = keepends (split_lines content)) as E.
  { unfold lines, splitlines_keepends. rewrite (splitlines_from_lf content [] Hlf).
    destruct (split_lines content) eqn:S; [|reflexivity].
    exfalso. exact (split_lines_nonempty content S). }
  assert (lines <> []) as Hl.
  { pose proof (splitlines_from_concat (length content) content [] (Nat.le_refl _)) as Hc.
    fold (splitlines_keepends content) in Hc. fold lines in Hc.
    intros E0. rewrite E0 in Hc. cbn in Hc. congruence. }
  unfold position_to_offset. cbn [line character].
  rewrite E in *. pose proof (keepends_end (split_lines content) Hl) as K.
  rewrite sum_split_lines in K. lia.
Qed.

Lemma mk_Position_ok (l c : Z) (p : Position) :
  mk_Position l c = Ok p -> p = {| line := Z.to_nat l; character := Z.to_nat c |}.
Proof.
  unfold mk_Position, uinteger.
  destruct ((0 <=? l)%Z && (l <=? UINTEGER_MAX_VALUE)%Z); [|discriminate].
  destruct ((0 <=? c)%Z && (c <=? UINTEGER_MAX_VALUE)%Z); [|discriminate].
  intros [= <-]. reflexivity.
Qed.

Lemma whole_document_edit_range (content formatted : str) (edit : TextEdit) :
  whole_document_edit content formatted = Ok edit ->
  let lines := splitlines_keepends content in
  te_new_text edit = formatted /\
  range_start (te_range edit) = {| line := 0; character := 0 |} /\
  range_end (te_range edit) =
    {| line := length lines - 1; character := length (default [] (last lines)) |}.
Proof.
  intros H. cbv zeta. unfold whole_document_edit in H. cbv zeta in H.
  set (lines := splitlines_keepends content) in *.
  destruct (mk_Position 0 0) as [start|] eqn:E0; [|discriminate].
  apply mk_Position_ok in E0. subst start.
  match type of H with
  | match ?m with _ => _ end = _ => destruct m as [end_|] eqn:E1; [|discriminate]
  end.
  apply mk_Position_ok in E1. subst end_.
  injection H as <-. cbn [te_new_text te_range range_start range_end].
  split; [reflexivity|]. split; [reflexivity|].
  f_equal; [lia|]. destruct (last lines); cbn; lia.
Qed.

(** ** Edits of the formatting request *)

(** Every path of [formatting] that returns an edit went through the
    formatter and through [whole_document_edit]. *)
Lemma formatting_edit_inv `{C : Collaborators} (uri : str) (t t' : trace)
    (edits : list TextEdit) :
  formatting uri t = (t', Ok edits) ->
  edits <> [] ->
  exists content formatted edit,
    edits = [edit] /\
    is_cgx uri = true /\
    get_text_document uri = Ok content /\
    format_cgx_content content uri = Ok formatted /\
    formatted <> content /\
    whole_document_edit content formatted = Ok edit.
Proof.
  unfold formatting, try_except, bind, log, emit, ret, invoke, lift.
  destruct (is_cgx uri) eqn:Hcgx; cbn [negb].
  2:{ intros [= _ <-] Hne. congruence. }
  destruct (get_text_document uri) as [content|e] eqn:Hdoc.
  2:{ intros [= _ <-] Hne. congruence. }
  destruct (format_cgx_content content uri) as [formatted|e] eqn:Hfmt.
  2:{ intros [= _ <-] Hne. congruence. }
  destruct (bool_decide (formatted = content)) eqn:Hsame.
  { intros [= _ <-] Hne. congruence. }
  destruct (whole_document_edit content formatted) as [edit|e] eqn:Hedit.
  2:{ intros [= _ <-] Hne. congruence. }
  intros [= _ <-] _. exists content, formatted, edit.
  apply bool_decide_eq_false_1 in Hsame. auto 10.
Qed.

(** X16: an edit is returned only for a formatter output that differs from
    the document: whenever [formatting] returns edits, there is exactly one,
    the handle ends in [.cgx], the document is not empty, the edit's new
    text is what the formatter returned for that document and differs from
    it, and its range runs from (0, 0) to the end of the last line as
    [str.splitlines] cuts it. *)
Theorem formatting_edit_is_formatter_output `{C : Collaborators}
    (uri : str) (t t' : trace) (edits : list TextEdit) :
  formatting uri t = (t', Ok edits) ->
  edits <> [] ->
  exists content edit,
    edits = [edit] /\
    is_cgx uri = true /\
    get_text_document uri = Ok content /\
    content <> [] /\
    format_cgx_content content uri = Ok (te_new_text edit) /\
    te_new_text edit <> content /\
    range_start (te_range edit) = {| line := 0; character := 0 |} /\
    range_end (te_range edit) =
      {| line := length (splitlines_keepends content) - 1;
         character := length (default [] (last (splitlines_keepends content))) |}.
Proof.
  intros Hrun Hne.
  destruct (formatting_edit_inv uri t t' edits Hrun Hne)
    as (content & formatted & edit & -> & Hcgx & Hdoc & Hfmt & Hdiff & Hedit).
  exists content, edit.
  assert (Hcontent : content <> []).
  { intros ->. destruct (whole_document_edit_empty formatted) as [e He]. congruence. }
  destruct (whole_document_edit_range content formatted edit Hedit)
    as (Htext & Hstart & Hend).
  rewrite Htext. auto 10.
Qed.

Lemma formatting_edit_is_formatter_output_witness :
  let C := example_collaborators (lit "x=1" ++ [LF]) (Ok (lit "x = 1" ++ [LF])) (Ok tt) in
  let uri := lit "file:///a.cgx" in
  exists content edit,
    [{| te_range := {| range_start := {| line := 0; character := 0 |};
                       range_end := {| line := 0; character := 4 |} |};
        te_new_text := lit "x = 1" ++ [LF] |}] = [edit] /\
    is_cgx uri = true /\
    get_text_document uri = Ok content /\
    content <> [] /\
    format_cgx_content content uri = Ok (te_new_text edit) /\
    te_new_text edit <> content /\
    range_start (te_range edit) = {| line := 0; character := 0 |} /\
    range_end (te_range edit) =
      {| line := length (splitlines_keepends content) - 1;
         character := length (default [] (last (splitlines_keepends content))) |}.
Proof.
  intros C uri.
  apply (formatting_edit_is_formatter_output (C := C) uri []
           (fst (run (formatting uri)))).
  - vm_compute. reflexivity.
  - discriminate.
Defined.

(** The last piece of [split("\n")] is empty exactly when the text is empty
    or ends in a line feed. *)
Lemma split_lines_last_empty (s : str) :
  last (split_lines s) = Some [] <-> s = [] \/ last s = Some LF.
Proof.
  induction s as [|c s IH]; [cbn; tauto|].
  destruct (ascii_eq_dec_lf c) as [->|Hne].
  - rewrite split_lines_cons_lf.
    destruct (split_lines s) as [|l ls] eqn:E; [exfalso; exact (split_lines_nonempty s E)|].
    rewrite last_cons_cons, IH. destruct s as [|c' s'].
    + cbn. tauto.
    + rewrite last_cons_cons. split; intros [H|H]; try discriminate; tauto.
  - destruct (split_lines_cons_other c s Hne) as (l & ls & E1 & E2).
    rewrite E2. rewrite E1 in IH. destruct ls as [|l2 ls2].
    + split; [cbn; discriminate|]. intros [H|H]; [discriminate|]. exfalso.
      destruct s as [|c' s'].
      * cbn in H. congruence.
      * rewrite last_cons_cons in H.
        assert (l = []) as -> by (cbn [last] in IH; assert (Some l = Some []) by tauto; congruence).
        pose proof (sum_split_lines (c' :: s')) as S. rewrite E1 in S. cbn in S. lia.
    + rewrite last_cons_cons. rewrite last_cons_cons in IH. rewrite IH.
      destruct s as [|c' s']; [cbn in E1; discriminate|].
      rewrite last_cons_cons. split; intros [H|H]; try discriminate; tauto.
Qed.

(** Where the last line of [keepends] ends, as a position among the pieces:
    on the last piece at its end, or, when the last piece is empty, on the
    piece before it one past its end. *)
Lemma keepends_last_position (pieces : list str) :
  keepends pieces <> [] ->
  exists l, pieces !! (length (keepends pieces) - 1) = Some l /\
    ((length (default [] (last (keepends pieces))) = length l /\
      last pieces <> Some []) \/
     (length (default [] (last (keepends pieces))) = length l + 1 /\
      last pieces = Some [])).
Proof.
  induction pieces as [|l ls IH]; [cbn; congruence|].
  destruct ls as [|l' ls'].
  - cbn [keepends]. destruct l as [|c l]; [congruence|]. intros _.
    exists (c :: l). split; [reflexivity|]. left. split; [reflexivity|]. cbn. discriminate.
  - intros _. change (keepends (l :: l' :: ls')) with ((l ++ [LF]) :: keepends (l' :: ls')).
    destruct (keepends (l' :: ls')) as [|k ks] eqn:K.
    + apply keepends_empty in K as [-> ->]. exists l. split; [reflexivity|].
      right. split; [|reflexivity]. cbn. rewrite length_app. reflexivity.
    + destruct (IH ltac:(discriminate)) as (l0 & Hl0 & Hcase).
      cbn [length] in *. replace (S (length ks) - 1) with (length ks) in Hl0 by lia.
      replace (S (S (length ks)) - 1) with (S (length ks)) by lia.
      exists l0. split; [exact Hl0|].
      rewrite !last_cons_cons. exact Hcase.
Qed.

Lemma splitlines_keepends_nonempty (content : str) :
  content <> [] -> splitlines_keepends content <> [].
Proof.
  intros Hne E.
  pose proof (splitlines_from_concat (length content) content [] (Nat.le_refl _)) as Hc.
  fold (splitlines_keepends content) in Hc. rewrite E in Hc. cbn in Hc. congruence.
Qed.

Lemma splitlines_keepends_lf (content : str) :
  lf_only content -> splitlines_keepends content = keepends (split_lines content).
Proof.
  intros Hlf. unfold splitlines_keepends. rewrite (splitlines_from_lf content [] Hlf).
  destruct (split_lines content) eqn:S; [|reflexivity].
  exfalso. exact (split_lines_nonempty content S).
Qed.

(** What a returned edit says about the document that was read. *)
Lemma formatting_edit_of_document `{C : Collaborators} (uri content : str)
    (t t' : trace) (edits : list TextEdit) (edit : TextEdit) :
  formatting uri t = (t', Ok edits) ->
  edit ∈ edits ->
  get_text_document uri = Ok content ->
  content <> [] /\
  range_start (te_range edit) = {| line := 0; character := 0 |} /\
  range_end (te_range edit) =
    {| line := length (splitlines_keepends content) - 1;
       character := length (default [] (last (splitlines_keepends content))) |}.
Proof.
  intros Hrun Hin Hdoc.
  assert (edits <> []) as Hne by (intros ->; inversion Hin).
  destruct (formatting_edit_inv uri t t' edits Hrun Hne)
    as (content' & formatted & edit' & -> & _ & Hdoc' & _ & _ & Hedit).
  apply list_elem_of_singleton in Hin. subst edit'.
  assert (content' = content) as -> by congruence.
  split.
  { intros ->. destruct (whole_document_edit_empty formatted) as [e He]. congruence. }
  destruct (whole_document_edit_range content formatted edit Hedit) as (_ & Hstart & Hend).
  split; assumption.
Qed.

(** X17: on a document whose only line boundary is the line feed, the range
    of a returned edit covers the whole document as [position_to_offset]
    counts it: the start is offset 0 and the end is the length of the
    document, so [str.splitlines] and [str.split] agree on where the text
    ends. *)
Theorem formatting_edit_spans_document `{C : Collaborators} (uri content : str)
    (t t' : trace) (edits : list TextEdit) (edit : TextEdit) :
  formatting uri t = (t', Ok edits) ->
  edit ∈ edits ->
  get_text_document uri = Ok content ->
  lf_only content ->
  position_to_offset content (range_start (te_range edit)) = 0 /\
  position_to_offset content (range_end (te_range edit)) = length content.
Proof.
  intros Hrun Hin Hdoc Hlf.
  destruct (formatting_edit_of_document uri content t t' edits edit Hrun Hin Hdoc)
    as (Hne & -> & ->).
  split; [reflexivity|]. exact (position_to_offset_end_of_lines content Hlf Hne).
Qed.

Lemma formatting_edit_spans_document_witness :
  let C := example_collaborators (lit "x=1" ++ LF :: lit "y=2")
             (Ok (lit "x = 1" ++ LF :: lit "y = 2" ++ [LF])) (Ok tt) in
  let edit := {| te_range := {| range_start := {| line := 0; character := 0 |};
                                range_end := {| line := 1; character := 3 |} |};
                 te_new_text := lit "x = 1" ++ LF :: lit "y = 2" ++ [LF] |} in
  snd (run (formatting (lit "file:///a.cgx"))) = Ok [edit] /\
  position_to_offset (lit "x=1" ++ LF :: lit "y=2") (range_start (te_range edit)) = 0 /\
  position_to_offset (lit "x=1" ++ LF :: lit "y=2") (range_end (te_range edit)) = 7.
Proof.
  intros C edit. split; [vm_compute; reflexivity|].
  apply (formatting_edit_spans_document (C := C) (lit "file:///a.cgx")
           (lit "x=1" ++ LF :: lit "y=2") []
           (fst (run (formatting (lit "file:///a.cgx")))) [edit] edit).
  - vm_compute. reflexivity.
  - apply list_elem_of_singleton. reflexivity.
  - reflexivity.
  - repeat (constructor; [intros H; first [reflexivity | vm_compute in H; discriminate]|]).
    constructor.
Defined.

(** X18: on a document whose only line boundary is the line feed, the end
    of a returned edit's range is a position within the bounds of the
    document exactly when the document does not end in a line feed.  For a
    document that ends in one, [splitlines(keepends=True)] counts the line
    feed as a character of the last line, and the end lies one character
    past the end of that line. *)
Theorem formatting_edit_end_in_bounds `{C : Collaborators} (uri content : str)
    (t t' : trace) (edits : list TextEdit) (edit : TextEdit) :
  formatting uri t = (t', Ok edits) ->
  edit ∈ edits ->
  get_text_document uri = Ok content ->
  lf_only content ->
  in_bounds content (range_end (te_range edit)) <-> last content <> Some LF.
Proof.
  intros Hrun Hin Hdoc Hlf.
  destruct (formatting_edit_of_document uri content t t' edits edit Hrun Hin Hdoc)
    as (Hne & _ & ->).
  pose proof (splitlines_keepends_nonempty content Hne) as Hlines.
  rewrite (splitlines_keepends_lf content Hlf) in *.
  destruct (keepends_last_position (split_lines content) Hlines)
    as (l & Hl & [[Hchar Hlast]|[Hchar Hlast]]);
    unfold in_bounds; cbn [line character]; rewrite Hchar.
  - split.
    + intros _ Hend. apply Hlast, split_lines_last_empty. right. exact Hend.
    + intros _. exists l. split; [exact Hl|lia].
  - split.
    + intros (l' & Hl' & Hle). rewrite Hl in Hl'. injection Hl' as <-. lia.
    + intros Hend. exfalso. apply split_lines_last_empty in Hlast as [?|?]; congruence.
Qed.

Lemma formatting_edit_end_in_bounds_witness :
  let C := example_collaborators (lit "x=1" ++ [LF]) (Ok (lit "x = 1" ++ [LF])) (Ok tt) in
  let edit := {| te_range := {| range_start := {| line := 0; character := 0 |};
                                range_end := {| line := 0; character := 4 |} |};
                 te_new_text := lit "x = 1" ++ [LF] |} in
  snd (run (formatting (lit "file:///a.cgx"))) = Ok [edit] /\
  (in_bounds (lit "x=1" ++ [LF]) {| line := 0; character := 4 |} <->
   last (lit "x=1" ++ [LF]) <> Some LF).
Proof.
  intros C edit. split; [vm_compute; reflexivity|].
  apply (formatting_edit_end_in_bounds (C := C) (lit "file:///a.cgx")
           (lit "x=1" ++ [LF]) []
           (fst (run (formatting (lit "file:///a.cgx")))) [edit] edit).
  - vm_compute. reflexivity.
  - apply list_elem_of_singleton. reflexivity.
  - reflexivity.
  - repeat (constructor; [intros H; first [reflexivity | vm_compute in H; discriminate]|]).
    constructor.
Defined.
